(** * NoiseBandNet: the DDSP synthesis engine

    A shallow embedding of [ddsp/synths.py] (BaseSynth, NoiseBandSynth,
    SineSynth, HarmonicSynth, SynthRegister) and of
    [modules/noisebandnet.py] (NoiseBandNet._synthesize).

    Tensors are modelled with their shape and an indexing function; the
    scalars are the real numbers, so [float32] rounding is idealised away
    and every equation below is one of exact arithmetic.  A Python
    exception raised by a tensor primitive is the result [None]. *)

From Stdlib Require Import Reals Lra Lia List Arith ZArith Bool String.
Import ListNotations.

(* ================================================================== *)
(** * Part I: definitions *)
(* ================================================================== *)

(** ** Errors: the option monad *)

Definition bind {A B : Type} (m : option A) (k : A -> option B) : option B :=
  match m with
  | Some a => k a
  | None => None
  end.

Notation "x <- m ;; k" := (bind m (fun x => k))
  (at level 61, m at next level, right associativity).
Notation "' pat <- m ;; k" := (bind m (fun x => match x with pat => k end))
  (at level 61, pat pattern, m at next level, right associativity).

(** ** Tensors *)

Module Torch.

(** A three-dimensional tensor: its [shape] and its entries.  Entries
    outside the shape are never read by the operations below. *)
Record tensor3 : Type := T3 {
  dim0 : nat;
  dim1 : nat;
  dim2 : nat;
  at3 : nat -> nat -> nat -> R
}.

(** A two-dimensional tensor (the noise-band buffer, the phase buffer). *)
Record tensor2 : Type := T2 {
  rows : nat;
  cols : nat;
  at2 : nat -> nat -> R
}.

(** Equality of tensors: same shape, same entries inside the shape. *)
Definition teq3 (x y : tensor3) : Prop :=
  dim0 x = dim0 y /\ dim1 x = dim1 y /\ dim2 x = dim2 y /\
  forall b c t, b < dim0 x -> c < dim1 x -> t < dim2 x ->
    at3 x b c t = at3 y b c t.

Definition teq2 (x y : tensor2) : Prop :=
  rows x = rows y /\ cols x = cols y /\
  forall k i, k < rows x -> i < cols x -> at2 x k i = at2 y k i.

(** [sum_{i < n} f i], accumulated from index 0 upwards. *)
Fixpoint rsum (n : nat) (f : nat -> R) : R :=
  match n with
  | O => 0%R
  | S m => (rsum m f + f m)%R
  end.

(** *** Broadcasting *)

(** The broadcast of two sizes of one dimension: equal, or one of them 1. *)
Definition bdim (a b : nat) : option nat :=
  if a =? b then Some a
  else if a =? 1 then Some b
  else if b =? 1 then Some a
  else None.

(** The index read in a dimension of size [d] when the result index is [i]. *)
Definition bidx (d i : nat) : nat := if d =? 1 then 0 else i.

(** An elementwise binary operation with broadcasting. *)
Definition bcast (f : R -> R -> R) (x y : tensor3) : option tensor3 :=
  d0 <- bdim (dim0 x) (dim0 y) ;;
  d1 <- bdim (dim1 x) (dim1 y) ;;
  d2 <- bdim (dim2 x) (dim2 y) ;;
  Some (T3 d0 d1 d2 (fun b c t =>
    f (at3 x (bidx (dim0 x) b) (bidx (dim1 x) c) (bidx (dim2 x) t))
      (at3 y (bidx (dim0 y) b) (bidx (dim1 y) c) (bidx (dim2 y) t)))).

Definition mul (x y : tensor3) : option tensor3 := bcast Rmult x y.
Definition add (x y : tensor3) : option tensor3 := bcast Rplus x y.

(** A 2-D operand of a 3-D operation is aligned on the trailing
    dimensions: shape (k, n) is read as (1, k, n). *)
Definition unsqueeze0 (y : tensor2) : tensor3 :=
  T3 1 (rows y) (cols y) (fun _ k i => at2 y k i).

(** *** Pointwise operations *)

Definition map3 (f : R -> R) (x : tensor3) : tensor3 :=
  T3 (dim0 x) (dim1 x) (dim2 x) (fun b c t => f (at3 x b c t)).

Definition map2 (f : R -> R) (x : tensor2) : tensor2 :=
  T2 (rows x) (cols x) (fun k i => f (at2 x k i)).

Definition mul_scalar (x : tensor3) (a : R) : tensor3 := map3 (fun v => (v * a)%R) x.
Definition div_scalar (x : tensor3) (a : R) : tensor3 := map3 (fun v => (v / a)%R) x.

(** Python's [%] on floats ([torch.remainder]): the result has the sign
    of the divisor, [x - floor (x / d) * d]. *)
Definition fmod (x d : R) : R := (x - IZR (Zfloor (x / d)) * d)%R.

Definition remainder3 (x : tensor3) (d : R) : tensor3 := map3 (fun v => fmod v d) x.
Definition remainder2 (x : tensor2) (d : R) : tensor2 := map2 (fun v => fmod v d) x.

Definition sin3 (x : tensor3) : tensor3 := map3 sin x.

Definition zeros2 (m n : nat) : tensor2 := T2 m n (fun _ _ => 0%R).

(** [torch.full((d0, d1, d2), v)]. *)
Definition full (d0 d1 d2 : nat) (v : R) : tensor3 := T3 d0 d1 d2 (fun _ _ _ => v).

(** *** Reductions and scans *)

(** [torch.sum(x, dim=1, keepdim=True)]. *)
Definition sum_dim1 (x : tensor3) : tensor3 :=
  T3 (dim0 x) 1 (dim2 x) (fun b _ t => rsum (dim1 x) (fun c => at3 x b c t)).

(** [x.cumsum(dim=-1)]. *)
Definition cumsum (x : tensor3) : tensor3 :=
  T3 (dim0 x) (dim1 x) (dim2 x) (fun b c t => rsum (S t) (at3 x b c)).

(** *** Moving data *)

(** [torch.roll(x, shifts, dims=-1)] on a 2-D tensor:
    [out[k][i] = x[k][(i - shifts) mod n]]. *)
Definition roll (x : tensor2) (shifts : Z) : tensor2 :=
  T2 (rows x) (cols x) (fun k i =>
    at2 x k (Z.to_nat ((Z.of_nat i - shifts) mod Z.of_nat (cols x)))).

(** [x.repeat(1, n)] on a 2-D tensor: [n] copies side by side. *)
Definition repeat_cols (x : tensor2) (n : nat) : tensor2 :=
  T2 (rows x) (cols x * n) (fun k i => at2 x k (i mod cols x)).

(** [x[:, :n]]. *)
Definition trim_cols (x : tensor2) (n : nat) : tensor2 :=
  T2 (rows x) (Nat.min n (cols x)) (at2 x).

(** [x[:, :, lo:hi]] for [0 <= lo] and [0 <= hi]: the bounds are clamped
    to the size of the dimension. *)
Definition slice_last (x : tensor3) (lo hi : nat) : tensor3 :=
  T3 (dim0 x) (dim1 x) (Nat.min hi (dim2 x) - Nat.min lo (dim2 x))
     (fun b c i => at3 x b c (Nat.min lo (dim2 x) + i)).

(** [x[:, :, -1]]: the last time step, an [IndexError] on an empty axis. *)
Definition select_last (x : tensor3) : option tensor2 :=
  if dim2 x =? 0 then None
  else Some (T2 (dim0 x) (dim1 x) (fun b c => at3 x b c (dim2 x - 1))).

(** [x.permute(2, 0, 1)] and [x.permute(1, 2, 0)]. *)
Definition permute_201 (x : tensor3) : tensor3 :=
  T3 (dim2 x) (dim0 x) (dim1 x) (fun t b c => at3 x b c t).
Definition permute_120 (x : tensor3) : tensor3 :=
  T3 (dim1 x) (dim2 x) (dim0 x) (fun b c t => at3 x t b c).

(** [dst.copy_(src)]: [src] is broadcast to the shape of [dst]. *)
Definition copy_ (dst src : tensor2) : option tensor2 :=
  if ((rows src =? rows dst) || (rows src =? 1)) &&
     ((cols src =? cols dst) || (cols src =? 1))
  then Some (T2 (rows dst) (cols dst) (fun b c =>
         at2 src (bidx (rows src) b) (bidx (cols src) c)))
  else None.

(** [torch.split(x, sizes, dim=-1)]: consecutive sections of the last
    dimension; the sizes must add up to its length. *)
Fixpoint split_sections (x : tensor3) (off : nat) (sizes : list nat) : list tensor3 :=
  match sizes with
  | [] => []
  | w :: ws => slice_last x off (off + w) :: split_sections x (off + w) ws
  end.

Definition split (x : tensor3) (sizes : list nat) : option (list tensor3) :=
  if list_sum sizes =? dim2 x then Some (split_sections x 0 sizes) else None.

(** [torch.cat((x, y), dim=-1)] of two tensors that agree on the leading
    dimensions. *)
Definition cat (x y : tensor3) : tensor3 :=
  T3 (dim0 x) (dim1 x) (dim2 x + dim2 y) (fun b c t =>
    if t <? dim2 x then at3 x b c t else at3 y b c (t - dim2 x)).

(** *** Linear interpolation

    [F.interpolate(x, scale_factor=float(r), mode='linear')] with the
    default [align_corners=False].  Output step [t] reads the source
    coordinate [max(0, (t + 1/2) / r - 1/2)]; [src2 r t] is that
    coordinate scaled by [2 * r], an integer. *)
Definition src2 (r t : nat) : nat := 2 * t + 1 - r.

Definition interp_i0 (r t : nat) : nat := src2 r t / (2 * r).

Definition interp_i1 (len r t : nat) : nat :=
  interp_i0 r t + (if interp_i0 r t <? len - 1 then 1 else 0).

Definition interp_lambda1 (r t : nat) : R :=
  (IZR (Z.of_nat (src2 r t mod (2 * r))) / IZR (Z.of_nat (2 * r)))%R.

Definition interp_up (r : nat) (x : tensor3) : tensor3 :=
  T3 (dim0 x) (dim1 x) (dim2 x * r) (fun b c t =>
    ((1 - interp_lambda1 r t) * at3 x b c (interp_i0 r t)
     + interp_lambda1 r t * at3 x b c (interp_i1 (dim2 x) r t))%R).

(** The call fails on an empty channel or time axis and when the
    output would be empty. *)
Definition interpolate (x : tensor3) (scale_factor : nat) : option tensor3 :=
  if (dim1 x =? 0) || (dim2 x =? 0) || (dim2 x * scale_factor =? 0) then None
  else Some (interp_up scale_factor x).

End Torch.

(** ** Python scalars *)

(** [math.ceil(n / m)] on non-negative integers; [ZeroDivisionError] when
    [m] is 0. *)
Definition ceil_div (n m : nat) : option nat :=
  if m =? 0 then None else Some ((n + m - 1) / m).

(** [n % m] on non-negative integers; [ZeroDivisionError] when [m] is 0. *)
Definition py_mod (n m : nat) : option nat :=
  if m =? 0 then None else Some (n mod m).

(** [int(torch.randint(low, high, size=(1,)))]: the value drawn lies in
    [low, high); [entropy] stands for the generator's state.  The call
    fails when the range is empty. *)
Definition randint (low high entropy : nat) : option nat :=
  if low <? high then Some (low + entropy mod (high - low)) else None.

(** ** ddsp/synths.py *)

Module Synths.
Import Torch.

(** The FilterBank is an external collaborator: only the buffer it
    exposes, [noisebands] (filter index x sample), is used here. *)
Record FilterBank : Type := mkFilterBank {
  noisebands : tensor2
}.

(** *** NoiseBandSynth *)

Record NoiseBandSynth : Type := mkNoiseBandSynth {
  nb_resampling_factor : nat;
  nb_n_filters : nat;
  nb_filterbank : FilterBank;
  nb_training : bool;
  nb_noisebands_shift : nat
}.

(** [NoiseBandSynth.__init__]; a fresh [nn.Module] is in training mode. *)
Definition NoiseBandSynth_init (n_filters resampling_factor : nat)
    (filterbank : FilterBank) : NoiseBandSynth :=
  mkNoiseBandSynth resampling_factor n_filters filterbank true 0.

(** [.train(mode)] / [.eval()]. *)
Definition nb_train (mode : bool) (self : NoiseBandSynth) : NoiseBandSynth :=
  mkNoiseBandSynth (nb_resampling_factor self) (nb_n_filters self)
    (nb_filterbank self) mode (nb_noisebands_shift self).

Definition nb_set_shift (shift : nat) (self : NoiseBandSynth) : NoiseBandSynth :=
  mkNoiseBandSynth (nb_resampling_factor self) (nb_n_filters self)
    (nb_filterbank self) (nb_training self) shift.

(** The property [_noisebands]. *)
Definition nb_noisebands (self : NoiseBandSynth) : tensor2 :=
  noisebands (nb_filterbank self).

(** [NoiseBandSynth.__call__]; [entropy] feeds the training-mode draw. *)
Definition NoiseBandSynth_call (self : NoiseBandSynth) (entropy : nat)
    (amplitudes : tensor3) : option (tensor3 * NoiseBandSynth) :=
  (* upsample the amplitudes *)
  upsampled_amplitudes <- interpolate amplitudes (nb_resampling_factor self) ;;
  (* shift the noisebands to maintain the continuity of the noise signal *)
  let noisebands :=
    roll (nb_noisebands self) (- Z.of_nat (nb_noisebands_shift self)) in
  noisebands <-
    (if nb_training self then
       shifts <- randint 0 (cols noisebands) entropy ;;
       Some (roll noisebands (Z.of_nat shifts))
     else Some noisebands) ;;
  (* fit the noisebands into the amplitudes *)
  repeats <- ceil_div (dim2 upsampled_amplitudes) (cols noisebands) ;;
  let looped_bands := repeat_cols noisebands repeats in
  let looped_bands := trim_cols looped_bands (dim2 upsampled_amplitudes) in
  (* save the noisebands shift for the next iteration *)
  shift <- py_mod (nb_noisebands_shift self + dim2 upsampled_amplitudes)
                  (cols (nb_noisebands self)) ;;
  let self := nb_set_shift shift self in
  (* synthesize the signal *)
  product <- mul upsampled_amplitudes (unsqueeze0 looped_bands) ;;
  Some (sum_dim1 product, self).

Definition NoiseBandSynth_call_params (self : NoiseBandSynth) : list (string * nat) :=
  [("amplitudes"%string, nb_n_filters self)].

(** *** SineSynth *)

Record SineSynth : Type := mkSineSynth {
  ss_fs : Z;
  ss_n_sines : nat;
  ss_resampling_factor : nat;
  ss_phases : option tensor2;
  ss_streaming : bool
}.

(** [SineSynth.__init__]. *)
Definition SineSynth_init (fs : Z) (n_sines resampling_factor : nat)
    (streaming : bool) : SineSynth :=
  mkSineSynth fs n_sines resampling_factor None streaming.

Definition ss_set_phases (p : tensor2) (self : SineSynth) : SineSynth :=
  mkSineSynth (ss_fs self) (ss_n_sines self) (ss_resampling_factor self)
    (Some p) (ss_streaming self).

(** [self._phases is None or self._phases.shape[0] != batch_size]. *)
Definition phases_stale (self : SineSynth) (batch_size : nat) : bool :=
  match ss_phases self with
  | None => true
  | Some p => negb (rows p =? batch_size)
  end.

(** [SineSynth.__call__]. *)
Definition SineSynth_call (self : SineSynth) (frequencies amplitudes : tensor3)
    : option (tensor3 * SineSynth) :=
  let batch_size := dim0 frequencies in
  (* the phases buffer is initialised in streaming mode only *)
  let self :=
    if ss_streaming self && phases_stale self batch_size
    then ss_set_phases (zeros2 batch_size (ss_n_sines self)) self
    else self in
  (* upsample from the internal sampling rate to the target sampling rate *)
  frequencies <- interpolate frequencies (ss_resampling_factor self) ;;
  amplitudes <- interpolate amplitudes (ss_resampling_factor self) ;;
  (* the phase increments *)
  let omegas :=
    div_scalar (mul_scalar (mul_scalar frequencies 2) PI) (IZR (ss_fs self)) in
  (* the phases at points *)
  let phases := cumsum omegas in
  let phases := remainder3 phases (2 * PI) in
  '(phases, self) <-
    (if ss_streaming self then
       match ss_phases self with
       | None => None
       | Some stored =>
           (* shift the phases by the last phase from last generation *)
           shifted <- add (permute_201 phases) (unsqueeze0 stored) ;;
           let phases := permute_120 shifted in
           (* copy the last phases for next iteration *)
           last <- select_last phases ;;
           stored <- copy_ stored (remainder2 last (2 * PI)) ;;
           Some (phases, ss_set_phases stored self)
       end
     else Some (phases, self)) ;;
  (* generate and sum the sinewaves *)
  product <- mul amplitudes (sin3 phases) ;;
  Some (sum_dim1 product, self).

Definition SineSynth_call_params (self : SineSynth) : list (string * nat) :=
  [("frequencies"%string, ss_n_sines self); ("amplitudes"%string, ss_n_sines self)].

(** *** HarmonicSynth (a subclass of SineSynth) *)

Record HarmonicSynth : Type := mkHarmonicSynth {
  hs_super : SineSynth;
  hs_n_harmonics : nat
}.

(** [HarmonicSynth.__init__]: the parent is built with
    [n_sines = n_harmonics]. *)
Definition HarmonicSynth_init (fs : Z) (n_harmonics resampling_factor : nat)
    (streaming : bool) : HarmonicSynth :=
  mkHarmonicSynth (SineSynth_init fs n_harmonics resampling_factor streaming)
    n_harmonics.

(** The [fundamental] argument is documented as a 2-D tensor
    [batch_size, n_samples] and declared as a slot of width 1, a 3-D
    tensor; Python accepts both. *)
Inductive tensor : Type :=
| Rank2 (x : tensor2)
| Rank3 (x : tensor3).

(** [torch.arange(1, n + 1).reshape(1, -1, 1)]: the numbers 1 .. n
    along the middle axis.  For [n = 0] the range is empty and the
    inferred dimension is 0, a tensor of shape (1, 0, 1). *)
Definition harmonic_numbers (n : nat) : tensor3 :=
  T3 1 n 1 (fun _ h _ => IZR (Z.of_nat (h + 1))).

(** The first two statements of [HarmonicSynth.__call__]: the
    frequencies handed to [SineSynth.__call__]. *)
Definition harmonic_frequencies (self : HarmonicSynth) (fundamental : tensor)
    : option tensor3 :=
  let harmonics := harmonic_numbers (hs_n_harmonics self) in
  match fundamental with
  | Rank3 f => mul f harmonics
  | Rank2 f => mul (unsqueeze0 f) harmonics
  end.

(** [HarmonicSynth.__call__]. *)
Definition HarmonicSynth_call (self : HarmonicSynth) (fundamental : tensor)
    (amplitudes : tensor3) : option (tensor3 * HarmonicSynth) :=
  frequencies <- harmonic_frequencies self fundamental ;;
  '(signal, super) <- SineSynth_call (hs_super self) frequencies amplitudes ;;
  Some (signal, mkHarmonicSynth super (hs_n_harmonics self)).

Definition HarmonicSynth_call_params (self : HarmonicSynth) : list (string * nat) :=
  [("fundamental"%string, 1); ("amplitudes"%string, hs_n_harmonics self)].

(** *** BaseSynth: the closed set of generators *)

Inductive BaseSynth : Type :=
| NoiseBand (s : NoiseBandSynth)
| Sine (s : SineSynth)
| Harmonic (s : HarmonicSynth).

Definition call_params (synth : BaseSynth) : list (string * nat) :=
  match synth with
  | NoiseBand s => NoiseBandSynth_call_params s
  | Sine s => SineSynth_call_params s
  | Harmonic s => HarmonicSynth_call_params s
  end.

(** [BaseSynth.total_params]: [sum(self.call_params.values())]. *)
Definition total_params (synth : BaseSynth) : nat :=
  list_sum (map snd (call_params synth)).

(** *** SynthRegister *)

Record SynthRegister : Type := mkSynthRegister {
  synths : list BaseSynth
}.

Definition SynthRegister_init : SynthRegister := mkSynthRegister [].

Definition register (self : SynthRegister) (synth : BaseSynth) : SynthRegister :=
  mkSynthRegister (synths self ++ [synth]).

Definition register_total_params (self : SynthRegister) : nat :=
  list_sum (map total_params (synths self)).

(** The loop of [split_params]: [params_offset] is threaded through the
    iterations exactly as the source does, that is, unchanged. *)
Fixpoint split_params_loop (todo : list BaseSynth) (params : tensor3)
    (params_offset : nat) (params_list : list (list tensor3))
    : option (list (list tensor3)) :=
  match todo with
  | [] => Some params_list
  | synth :: rest =>
      let synth_params :=
        slice_last params params_offset (params_offset + total_params synth) in
      synth_params <- split synth_params (map snd (call_params synth)) ;;
      split_params_loop rest params params_offset (params_list ++ [synth_params])
  end.

(** [SynthRegister.split_params]. *)
Definition split_params (self : SynthRegister) (params : tensor3)
    : option (list (list tensor3)) :=
  split_params_loop (synths self) params 0 [].

(** [SynthRegister.__getitem__]: Python list indexing; a negative index
    counts from the end, and an index outside [-len, len) is an
    [IndexError]. *)
Definition SynthRegister_getitem (self : SynthRegister) (index : Z)
    : option BaseSynth :=
  let len := Z.of_nat (List.length (synths self)) in
  if ((0 <=? index) && (index <? len))%Z then
    nth_error (synths self) (Z.to_nat index)
  else if ((- len <=? index) && (index <? 0))%Z then
    nth_error (synths self) (Z.to_nat (len + index))
  else None.

(** The property [SineSynth.parameters_size]. *)
Definition SineSynth_parameters_size (self : SineSynth) : nat :=
  ss_n_sines self * 2.

(** [HarmonicSynth] inherits [parameters_size] from [SineSynth]. *)
Definition HarmonicSynth_parameters_size (self : HarmonicSynth) : nat :=
  SineSynth_parameters_size (hs_super self).

(** The stored phases of a generator, when allocated, have one column
    per oscillator. *)
Definition phases_wf (self : SineSynth) : Prop :=
  match ss_phases self with
  | None => True
  | Some p => cols p = ss_n_sines self
  end.

End Synths.

(** ** modules/noisebandnet.py *)

Module Net.
Import Torch.

(** The state of a [NoiseBandNet] that [_synthesize] reads or writes;
    the predictor layers play no part in it. *)
Record NoiseBandNet : Type := mkNoiseBandNet {
  resampling_factor : nat;
  net_noisebands : tensor2;
  training : bool;
  noisebands_shift : nat
}.

(** [NoiseBandNet._synthesize]. *)
Definition synthesize (self : NoiseBandNet) (entropy : nat)
    (amplitudes : tensor3) : option (tensor3 * NoiseBandNet) :=
  (* upsample the amplitudes *)
  upsampled_amplitudes <- interpolate amplitudes (resampling_factor self) ;;
  (* shift the noisebands to maintain the continuity of the noise signal *)
  let noisebands :=
    roll (net_noisebands self) (- Z.of_nat (noisebands_shift self)) in
  noisebands <-
    (if training self then
       shifts <- randint 0 (cols noisebands) entropy ;;
       Some (roll noisebands (Z.of_nat shifts))
     else Some noisebands) ;;
  (* fit the noisebands into the amplitudes *)
  repeats <- ceil_div (dim2 upsampled_amplitudes) (cols noisebands) ;;
  let looped_bands := repeat_cols noisebands repeats in
  let looped_bands := trim_cols looped_bands (dim2 upsampled_amplitudes) in
  (* save the noisebands shift for the next iteration *)
  shift <- py_mod (noisebands_shift self + dim2 upsampled_amplitudes)
                  (cols (net_noisebands self)) ;;
  let self :=
    mkNoiseBandNet (resampling_factor self) (net_noisebands self)
      (training self) shift in
  (* synthesize the signal *)
  product <- mul upsampled_amplitudes (unsqueeze0 looped_bands) ;;
  Some (sum_dim1 product, self).

(** [torch.sigmoid] on one entry. *)
Definition sigmoid (x : R) : R := (1 / (1 + exp (- x)))%R.

(** [NoiseBandNet._scaled_sigmoid]:
    [2 * torch.pow(torch.sigmoid(x), math.log(10)) + 1e-18]. *)
Definition scaled_sigmoid (x : tensor3) : tensor3 :=
  map3 (fun v => (2 * Rpower (sigmoid v) (ln 10) + 1e-18)%R) x.

(** The layers [_make_mlp] builds, by their constructor arguments. *)
Inductive layer : Type :=
| Linear (in_features out_features : nat)
| LayerNorm (normalized_shape : nat)
| LeakyReLU.

(** [NoiseBandNet._make_mlp]: the sizes list, then three layers per
    consecutive pair of sizes. *)
Definition make_mlp (in_size hidden_layers hidden_size : nat) : list layer :=
  let sizes := [in_size] ++ repeat hidden_size hidden_layers in
  flat_map (fun i =>
      [Linear (nth i sizes 0) (nth (i + 1) sizes 0);
       LayerNorm (nth (i + 1) sizes 0);
       LeakyReLU])
    (seq 0 (List.length sizes - 1)).

(** The width of the last dimension through one layer: [nn.Linear] and
    [nn.LayerNorm] raise on a last dimension other than the one they
    were built for. *)
Definition layer_width (l : layer) (width : nat) : option nat :=
  match l with
  | Linear in_features out_features =>
      if width =? in_features then Some out_features else None
  | LayerNorm normalized_shape =>
      if width =? normalized_shape then Some width else None
  | LeakyReLU => Some width
  end.

(** The width through a sequential container, layer after layer. *)
Fixpoint sequential_width (layers : list layer) (width : nat) : option nat :=
  match layers with
  | [] => Some width
  | l :: rest => w <- layer_width l width ;; sequential_width rest w
  end.

End Net.

(** ** Chunked rendering

    Consecutive calls on one generator, the outputs concatenated along
    time, as the loop of [SineSynth._test] does with [torch.cat]. *)

Module Chunked.
Import Torch Synths.

(** [torch.cat] of a first tensor and the tensors that follow. *)
Definition cat_list (x : tensor3) (ys : list tensor3) : tensor3 :=
  fold_left cat ys x.

(** The body of the loop: render every remaining chunk and append it to
    [signal]. *)
Fixpoint SineSynth_stream (self : SineSynth) (signal : tensor3)
    (chunks : list (tensor3 * tensor3)) : option (tensor3 * SineSynth) :=
  match chunks with
  | [] => Some (signal, self)
  | (freq, amp) :: rest =>
      '(out, self) <- SineSynth_call self freq amp ;;
      SineSynth_stream self (cat signal out) rest
  end.

(** Rendering a trajectory given as a first chunk and the chunks that
    follow. *)
Definition SineSynth_chunked (self : SineSynth) (chunk : tensor3 * tensor3)
    (rest : list (tensor3 * tensor3)) : option (tensor3 * SineSynth) :=
  '(out, self) <- SineSynth_call self (fst chunk) (snd chunk) ;;
  SineSynth_stream self out rest.

(** Two consecutive calls of a noise-band synth, outputs concatenated. *)
Definition NoiseBandSynth_two_calls (self : NoiseBandSynth) (e1 e2 : nat)
    (a1 a2 : tensor3) : option (tensor3 * NoiseBandSynth) :=
  '(out1, self) <- NoiseBandSynth_call self e1 a1 ;;
  '(out2, self) <- NoiseBandSynth_call self e2 a2 ;;
  Some (cat out1 out2, self).

(** [[f(x) for x in xs]] where [f] may raise. *)
Fixpoint try_map {A B : Type} (f : A -> option B) (xs : list A) : option (list B) :=
  match xs with
  | [] => Some []
  | x :: rest =>
      y <- f x ;;
      ys <- try_map f rest ;;
      Some (y :: ys)
  end.

(** Consecutive calls on one generator, the outputs kept apart. *)
Fixpoint SineSynth_calls (self : SineSynth) (inputs : list (tensor3 * tensor3))
    : option (list tensor3 * SineSynth) :=
  match inputs with
  | [] => Some ([], self)
  | (freq, amp) :: rest =>
      '(out, self) <- SineSynth_call self freq amp ;;
      '(outs, self) <- SineSynth_calls self rest ;;
      Some (out :: outs, self)
  end.

(** Consecutive calls on one noise-band generator, each with its own
    draw, the outputs kept apart. *)
Fixpoint NoiseBandSynth_calls (self : NoiseBandSynth)
    (inputs : list (nat * tensor3)) : option (list tensor3 * NoiseBandSynth) :=
  match inputs with
  | [] => Some ([], self)
  | (entropy, amplitudes) :: rest =>
      '(out, self) <- NoiseBandSynth_call self entropy amplitudes ;;
      '(outs, self) <- NoiseBandSynth_calls self rest ;;
      Some (out :: outs, self)
  end.

(** The shape every chunk of a trajectory has: [batch] elements, [n]
    oscillators, a non-empty time axis shared by both slots. *)
Definition chunk_shape (batch n : nat) (chunk : tensor3 * tensor3) : Prop :=
  dim0 (fst chunk) = batch /\ dim1 (fst chunk) = n /\
  dim0 (snd chunk) = batch /\ dim1 (snd chunk) = n /\
  dim2 (snd chunk) = dim2 (fst chunk) /\ dim2 (fst chunk) <> 0.

(** The oscillator bank on audio-rate inputs, with the phase kept as the
    unwrapped running sum of the angular increments.  It is the common
    value the renderings below are compared with. *)
Definition oscillator_bank (fs : Z) (F A : tensor3) : tensor3 :=
  T3 (dim0 F) 1 (dim2 F) (fun b _ t =>
    rsum (dim1 F) (fun c =>
      (at3 A b c t
       * sin (rsum (S t) (fun i => at3 F b c i * 2 * PI / IZR fs)))%R)).

End Chunked.

(** ** Concrete generators and inputs *)

Module Examples.
Import Torch Synths.

(** A filter bank of [k] bands of [m] samples; band [j] holds
    [j + 1, j + 2, ...]. *)
Definition ramp_bank (k m : nat) : FilterBank :=
  mkFilterBank (T2 k m (fun j i => IZR (Z.of_nat (j + i + 1)))).

(** One band of three samples, resampling factor 2, evaluation mode. *)
Definition nb_1x3 : NoiseBandSynth :=
  nb_train false (NoiseBandSynth_init 1 2 (ramp_bank 1 3)).

(** One band of two samples, resampling factor 2, evaluation mode. *)
Definition nb_1x2 : NoiseBandSynth :=
  nb_train false (NoiseBandSynth_init 1 2 (ramp_bank 1 2)).

(** Four bands of sixteen samples, resampling factor 2, training mode. *)
Definition nb_4x16 : NoiseBandSynth :=
  NoiseBandSynth_init 4 2 (ramp_bank 4 16).

(** One band of two samples, resampling factor 1, training mode. *)
Definition nb_training_1x2 : NoiseBandSynth :=
  NoiseBandSynth_init 1 1 (ramp_bank 1 2).

(** Two bands of two samples, resampling factor 1, evaluation mode. *)
Definition nb_2x2 : NoiseBandSynth :=
  nb_train false (NoiseBandSynth_init 2 1 (ramp_bank 2 2)).

(** One oscillator at sample rate 8, resampling factor 2. *)
Definition ss_1 (streaming : bool) : SineSynth := SineSynth_init 8 1 2 streaming.

(** A register holding one noise-band generator of width 1. *)
Definition reg_noise : SynthRegister :=
  register SynthRegister_init (NoiseBand nb_1x2).

(** The same register after a sine generator of width 1 + 1 is added. *)
Definition reg_noise_sine : SynthRegister :=
  register reg_noise (Sine (ss_1 false)).

(** The flat tensor made of the slots 10 | 20 | 30, one batch element,
    one time step. *)
Definition flat_10_20_30 : tensor3 :=
  cat (cat (full 1 1 1 10) (full 1 1 1 20)) (full 1 1 1 30).

(** A chunk of one oscillator, [len] control steps, with constant
    frequency [freq] and constant amplitude [amp]. *)
Definition const_chunk (len : nat) (freq amp : R) : tensor3 * tensor3 :=
  (full 1 1 len freq, full 1 1 len amp).

(** A phase buffer allocated for batch size 1 and one oscillator. *)
Definition phases_1x1 (v : R) : tensor2 := T2 1 1 (fun _ _ => v).

(** Two harmonics at sample rate 8, resampling factor 2, offline. *)
Definition hs_2 : HarmonicSynth := HarmonicSynth_init 8 2 2 false.

(** A 2-D fundamental [batch_size, n_samples] = (2, 1): 100 for the
    first batch element, 200 for the second. *)
Definition fundamental_2d : tensor2 :=
  T2 2 1 (fun b _ => IZR (Z.of_nat (100 * (b + 1)))).

(** The same fundamental as a slot of width 1, shape (2, 1, 1). *)
Definition fundamental_3d : tensor3 :=
  T3 2 1 1 (fun b _ _ => IZR (Z.of_nat (100 * (b + 1)))).

End Examples.

(* ================================================================== *)
(** * Part II: properties *)
(* ================================================================== *)

Import Torch Synths Chunked Examples.

(** ** Tensor primitives *)

Section TorchFacts.

Lemma bind_Some {A B : Type} (m : option A) (k : A -> option B) (b : B) :
  bind m k = Some b <-> exists a, m = Some a /\ k a = Some b.
Proof.
  destruct m as [a|]; simpl; split.
  - intros H; exists a; auto.
  - intros [a' [Ha Hk]]; inversion Ha; subst; assumption.
  - discriminate.
  - intros [a' [Ha _]]; discriminate.
Qed.

Lemma teq3_refl (x : tensor3) : teq3 x x.
Proof. unfold teq3; auto. Qed.

Lemma teq3_sym (x y : tensor3) : teq3 x y -> teq3 y x.
Proof.
  intros (H0 & H1 & H2 & H); unfold teq3; repeat split; auto.
  intros b c t Hb Hc Ht; symmetry; apply H; congruence.
Qed.

Lemma teq3_trans (x y z : tensor3) : teq3 x y -> teq3 y z -> teq3 x z.
Proof.
  intros (H0 & H1 & H2 & H) (K0 & K1 & K2 & K); unfold teq3.
  repeat split; try congruence.
  intros b c t Hb Hc Ht; rewrite H by assumption; apply K; congruence.
Qed.

Lemma rsum_ext (n : nat) (f g : nat -> R) :
  (forall i, i < n -> f i = g i) -> rsum n f = rsum n g.
Proof.
  induction n as [|n IH]; simpl; intros H; [reflexivity|].
  rewrite IH by (intros; apply H; lia).
  rewrite (H n) by lia; reflexivity.
Qed.

Lemma bdim_same (a : nat) : bdim a a = Some a.
Proof. unfold bdim; rewrite Nat.eqb_refl; reflexivity. Qed.

Lemma bdim_one_r (a : nat) : bdim a 1 = Some a.
Proof.
  unfold bdim; destruct (a =? 1) eqn:E; [apply Nat.eqb_eq in E; subst|]; reflexivity.
Qed.

Lemma bdim_one_l (b : nat) : bdim 1 b = Some b.
Proof.
  unfold bdim; destruct (1 =? b) eqn:E; [apply Nat.eqb_eq in E; subst|]; reflexivity.
Qed.

Lemma bdim_None (a b : nat) : a <> b -> a <> 1 -> b <> 1 -> bdim a b = None.
Proof.
  intros Hab Ha Hb; unfold bdim.
  apply Nat.eqb_neq in Hab, Ha, Hb; rewrite Hab, Ha, Hb; reflexivity.
Qed.

Lemma bdim_Some (a b d : nat) :
  bdim a b = Some d -> (a = b /\ d = a) \/ (a = 1 /\ d = b) \/ (b = 1 /\ d = a).
Proof.
  unfold bdim.
  destruct (a =? b) eqn:E1; [apply Nat.eqb_eq in E1; intros [= <-]; auto|].
  destruct (a =? 1) eqn:E2; [apply Nat.eqb_eq in E2; intros [= <-]; auto|].
  destruct (b =? 1) eqn:E3; [apply Nat.eqb_eq in E3; intros [= <-]; auto|].
  discriminate.
Qed.

Lemma bidx_lt (d i : nat) : i < d -> bidx d i = i.
Proof.
  unfold bidx; intros H; destruct (d =? 1) eqn:E; [|reflexivity].
  apply Nat.eqb_eq in E; lia.
Qed.

Lemma bidx_bound (a b d i : nat) : bdim a b = Some d -> i < d -> bidx a i < a.
Proof.
  intros H Hi; unfold bidx; destruct (a =? 1) eqn:E.
  - apply Nat.eqb_eq in E; lia.
  - apply Nat.eqb_neq in E; apply bdim_Some in H; lia.
Qed.

Lemma bdim_comm (a b : nat) : bdim a b = bdim b a.
Proof.
  unfold bdim; rewrite (Nat.eqb_sym b a).
  destruct (a =? b) eqn:E; [apply Nat.eqb_eq in E; subst; reflexivity|].
  destruct (a =? 1) eqn:Ea, (b =? 1) eqn:Eb; try reflexivity.
  apply Nat.eqb_eq in Ea, Eb; apply Nat.eqb_neq in E; lia.
Qed.

Lemma bidx_bound_r (a b d i : nat) : bdim a b = Some d -> i < d -> bidx b i < b.
Proof. rewrite bdim_comm; apply bidx_bound. Qed.

(** Rolling left by [s] reads position [(i + s) mod n]. *)
Lemma roll_left_index (i s n : nat) :
  Z.to_nat ((Z.of_nat i - - Z.of_nat s) mod Z.of_nat n) = (i + s) mod n.
Proof.
  replace (Z.of_nat i - - Z.of_nat s)%Z with (Z.of_nat (i + s)) by lia.
  rewrite <- Nat2Z.inj_mod; apply Nat2Z.id.
Qed.

End TorchFacts.

(** ** NoiseBandSynth *)

Section NoiseBandFacts.

Lemma interpolate_Some (x up : tensor3) (r : nat) :
  interpolate x r = Some up <->
  dim1 x <> 0 /\ dim2 x <> 0 /\ r <> 0 /\ up = interp_up r x.
Proof.
  unfold interpolate.
  destruct (dim1 x =? 0) eqn:E1; simpl.
  { apply Nat.eqb_eq in E1; split; [discriminate | tauto]. }
  destruct (dim2 x =? 0) eqn:E2; simpl.
  { apply Nat.eqb_eq in E2; split; [discriminate | tauto]. }
  destruct (dim2 x * r =? 0) eqn:E3.
  { apply Nat.eqb_eq in E3; apply Nat.eqb_neq in E2.
    split; [discriminate | intros (_ & _ & Hr & _); nia]. }
  apply Nat.eqb_neq in E1, E2, E3; split.
  - intros [= <-]; repeat split; auto; nia.
  - intros (_ & _ & _ & ->); reflexivity.
Qed.

Lemma ceil_div_Some (n m q : nat) :
  ceil_div n m = Some q -> m <> 0 /\ n <= m * q.
Proof.
  unfold ceil_div; destruct (m =? 0) eqn:E; [discriminate|].
  apply Nat.eqb_neq in E; intros [= <-]; split; [assumption|].
  pose proof (Nat.div_mod_eq (n + m - 1) m) as D.
  pose proof (Nat.mod_upper_bound (n + m - 1) m E) as U.
  lia.
Qed.

Lemma py_mod_Some (n m q : nat) :
  py_mod n m = Some q <-> m <> 0 /\ q = n mod m.
Proof.
  unfold py_mod; destruct (m =? 0) eqn:E.
  - apply Nat.eqb_eq in E; split; [discriminate | tauto].
  - apply Nat.eqb_neq in E; split; [intros [= <-]; auto | intros [_ ->]; reflexivity].
Qed.

Lemma bcast_Some (f : R -> R -> R) (x y p : tensor3) :
  bcast f x y = Some p ->
  bdim (dim0 x) (dim0 y) = Some (dim0 p) /\
  bdim (dim1 x) (dim1 y) = Some (dim1 p) /\
  bdim (dim2 x) (dim2 y) = Some (dim2 p) /\
  forall b c t, at3 p b c t =
    f (at3 x (bidx (dim0 x) b) (bidx (dim1 x) c) (bidx (dim2 x) t))
      (at3 y (bidx (dim0 y) b) (bidx (dim1 y) c) (bidx (dim2 y) t)).
Proof.
  unfold bcast; intros H.
  apply bind_Some in H as (d0 & H0 & H).
  apply bind_Some in H as (d1 & H1 & H).
  apply bind_Some in H as (d2 & H2 & H).
  injection H as <-; simpl; auto.
Qed.

Lemma bcast_ok (f : R -> R -> R) (x y : tensor3) (d0 d1 d2 : nat) :
  bdim (dim0 x) (dim0 y) = Some d0 ->
  bdim (dim1 x) (dim1 y) = Some d1 ->
  bdim (dim2 x) (dim2 y) = Some d2 ->
  exists p, bcast f x y = Some p.
Proof.
  intros H0 H1 H2; unfold bcast; rewrite H0, H1, H2; simpl; eauto.
Qed.

(** What a successful call does to the state, whatever the mode. *)
Lemma NoiseBandSynth_call_state (s : NoiseBandSynth) (e : nat) (a sig : tensor3)
    (s' : NoiseBandSynth) :
  NoiseBandSynth_call s e a = Some (sig, s') ->
  cols (nb_noisebands s) <> 0 /\
  s' = nb_set_shift
         ((nb_noisebands_shift s + dim2 a * nb_resampling_factor s)
            mod cols (nb_noisebands s)) s.
Proof.
  unfold NoiseBandSynth_call; intros H.
  apply bind_Some in H as (up & Hup & H).
  apply bind_Some in H as (nbs & Hnbs & H).
  apply bind_Some in H as (reps & Hreps & H).
  apply bind_Some in H as (sh & Hsh & H).
  apply bind_Some in H as (prod & Hprod & H).
  apply interpolate_Some in Hup as (_ & _ & _ & ->).
  apply py_mod_Some in Hsh as (HM & ->).
  injection H as _ <-; auto.
Qed.

(** The rotated bands have the shape of the buffer, in both modes. *)
Lemma rotated_shape (s : NoiseBandSynth) (e : nat) (nbs : tensor2) :
  (if nb_training s
   then shifts <- randint 0 (cols (roll (nb_noisebands s)
                     (- Z.of_nat (nb_noisebands_shift s)))) e ;;
        Some (roll (roll (nb_noisebands s) (- Z.of_nat (nb_noisebands_shift s)))
                (Z.of_nat shifts))
   else Some (roll (nb_noisebands s) (- Z.of_nat (nb_noisebands_shift s))))
  = Some nbs ->
  rows nbs = rows (nb_noisebands s) /\ cols nbs = cols (nb_noisebands s).
Proof.
  destruct (nb_training s).
  - intros H; apply bind_Some in H as (sh & _ & H); injection H as <-; auto.
  - intros [= <-]; auto.
Qed.

(** A call succeeds exactly when the shapes allow it, in both modes. *)
Lemma NoiseBandSynth_call_ok (s : NoiseBandSynth) (e : nat) (a : tensor3) :
  (exists r, NoiseBandSynth_call s e a = Some r) <->
  dim1 a <> 0 /\ dim2 a <> 0 /\ nb_resampling_factor s <> 0 /\
  cols (nb_noisebands s) <> 0 /\
  bdim (dim1 a) (rows (nb_noisebands s)) <> None.
Proof.
  split.
  - intros [[sig s'] H]; unfold NoiseBandSynth_call in H.
    apply bind_Some in H as (up & Hup & H).
    apply bind_Some in H as (nbs & Hnbs & H).
    apply bind_Some in H as (reps & Hreps & H).
    apply bind_Some in H as (sh & Hsh & H).
    apply bind_Some in H as (prod & Hprod & H).
    apply interpolate_Some in Hup as (H1 & H2 & Hr & ->).
    apply py_mod_Some in Hsh as (HM & _).
    apply rotated_shape in Hnbs as (Hrows & Hcols).
    apply bcast_Some in Hprod as (_ & Hd1 & _).
    simpl in Hd1; rewrite Hrows in Hd1.
    repeat split; auto; congruence.
  - intros (H1 & H2 & Hr & HM & Hb).
    unfold NoiseBandSynth_call.
    assert (Hup : interpolate a (nb_resampling_factor s)
                  = Some (interp_up (nb_resampling_factor s) a))
      by (apply interpolate_Some; auto).
    rewrite Hup; simpl bind.
    destruct (bdim (dim1 a) (rows (nb_noisebands s))) as [C'|] eqn:HC; [|congruence].
    assert (Hrot : exists nbs,
      (if nb_training s
       then shifts <- randint 0 (cols (nb_noisebands s)) e ;;
            Some (roll (roll (nb_noisebands s) (- Z.of_nat (nb_noisebands_shift s)))
                    (Z.of_nat shifts))
       else Some (roll (nb_noisebands s) (- Z.of_nat (nb_noisebands_shift s))))
      = Some nbs /\ rows nbs = rows (nb_noisebands s)
      /\ cols nbs = cols (nb_noisebands s)).
    { destruct (nb_training s); [|eauto].
      unfold randint.
      assert (E : (0 <? cols (nb_noisebands s)) = true) by (apply Nat.ltb_lt; lia).
      rewrite E; simpl; eauto. }
    destruct Hrot as (nbs & -> & Hrows & Hcols); simpl bind.
    unfold ceil_div, py_mod; rewrite Hcols.
    apply Nat.eqb_neq in HM; rewrite HM; simpl bind.
    apply Nat.eqb_neq in HM.
    edestruct (bcast_ok Rmult (interp_up (nb_resampling_factor s) a)
      (unsqueeze0 (trim_cols (repeat_cols nbs
         ((dim2 a * nb_resampling_factor s + cols (nb_noisebands s) - 1)
            / cols (nb_noisebands s)))
         (dim2 a * nb_resampling_factor s)))) as [p Hp].
    + apply bdim_one_r.
    + simpl; rewrite Hrows; exact HC.
    + simpl; rewrite Hcols.
      assert (Hq : ceil_div (dim2 a * nb_resampling_factor s) (cols (nb_noisebands s))
              = Some ((dim2 a * nb_resampling_factor s + cols (nb_noisebands s) - 1)
                        / cols (nb_noisebands s))).
      { unfold ceil_div; apply Nat.eqb_neq in HM; rewrite HM; reflexivity. }
      apply ceil_div_Some in Hq as (_ & Hq).
      rewrite Nat.min_l by exact Hq; apply bdim_same.
    + unfold mul; rewrite Hp; simpl; eauto.
Qed.

(** The signal of a call in evaluation mode, entry by entry. *)
Lemma NoiseBandSynth_call_eval (s : NoiseBandSynth) (e : nat) (a sig : tensor3)
    (s' : NoiseBandSynth) :
  nb_training s = false ->
  NoiseBandSynth_call s e a = Some (sig, s') ->
  exists C',
    bdim (dim1 a) (rows (nb_noisebands s)) = Some C' /\
    dim0 sig = dim0 a /\ dim1 sig = 1 /\
    dim2 sig = dim2 a * nb_resampling_factor s /\
    forall b c0 t, b < dim0 a -> t < dim2 a * nb_resampling_factor s ->
      at3 sig b c0 t =
      rsum C' (fun c =>
        (at3 (interp_up (nb_resampling_factor s) a) b (bidx (dim1 a) c) t
         * at2 (nb_noisebands s) (bidx (rows (nb_noisebands s)) c)
             ((t + nb_noisebands_shift s) mod cols (nb_noisebands s)))%R).
Proof.
  unfold NoiseBandSynth_call; intros Ht H; rewrite Ht in H.
  apply bind_Some in H as (up & Hup & H).
  apply bind_Some in H as (nbs & Hnbs & H).
  apply bind_Some in H as (reps & Hreps & H).
  apply bind_Some in H as (sh & Hsh & H).
  apply bind_Some in H as (prod & Hprod & H).
  apply interpolate_Some in Hup as (H1 & H2 & Hr & ->).
  injection Hnbs as <-.
  apply ceil_div_Some in Hreps as (HM & Hq); simpl in HM, Hq.
  apply bcast_Some in Hprod as (Hd0 & Hd1 & Hd2 & Hat).
  simpl in Hd0, Hd1, Hd2.
  rewrite Nat.min_l in Hd2 by exact Hq.
  rewrite bdim_one_r in Hd0; rewrite bdim_same in Hd2.
  injection Hd0 as Hd0; injection Hd2 as Hd2.
  injection H as <- _.
  exists (dim1 prod); simpl; repeat split; auto.
  intros b c0 t Hb Hlt.
  apply rsum_ext; intros c Hc.
  rewrite Hat; simpl.
  rewrite Nat.min_l by exact Hq.
  rewrite (bidx_lt _ _ Hb), !(bidx_lt _ _ Hlt).
  rewrite roll_left_index.
  rewrite Nat.Div0.add_mod_idemp_l; reflexivity.
Qed.

Lemma NoiseBandSynth_call_shape (s : NoiseBandSynth) (e : nat) (a sig : tensor3)
    (s' : NoiseBandSynth) :
  NoiseBandSynth_call s e a = Some (sig, s') ->
  dim0 sig = dim0 a /\ dim1 sig = 1 /\
  dim2 sig = dim2 a * nb_resampling_factor s.
Proof.
  unfold NoiseBandSynth_call; intros H.
  apply bind_Some in H as (up & Hup & H).
  apply bind_Some in H as (nbs & Hnbs & H).
  apply bind_Some in H as (reps & Hreps & H).
  apply bind_Some in H as (sh & Hsh & H).
  apply bind_Some in H as (prod & Hprod & H).
  apply interpolate_Some in Hup as (_ & _ & _ & ->).
  apply rotated_shape in Hnbs as (_ & Hcols).
  apply ceil_div_Some in Hreps as (_ & Hq).
  apply bcast_Some in Hprod as (Hd0 & _ & Hd2 & _).
  simpl in Hd0, Hd2, Hq.
  rewrite Nat.min_l in Hd2 by exact Hq.
  rewrite bdim_one_r in Hd0; rewrite bdim_same in Hd2.
  injection Hd0 as Hd0; injection Hd2 as Hd2.
  injection H as <- _; simpl; auto.
Qed.

(** C7.  After every successful render call the stored read offset is
    the previous offset plus the upsampled output length, modulo the
    band length, hence below the band length; and the call made in the
    other mode, with any random draw, succeeds as well and stores the
    same offset: the training-only rotation never contributes. *)
Theorem read_offset_invariant (s : NoiseBandSynth) (e : nat) (a sig : tensor3)
    (s' : NoiseBandSynth) :
  NoiseBandSynth_call s e a = Some (sig, s') ->
  dim2 sig = dim2 a * nb_resampling_factor s /\
  nb_noisebands_shift s' =
    (nb_noisebands_shift s + dim2 sig) mod cols (nb_noisebands s) /\
  nb_noisebands_shift s' < cols (nb_noisebands s) /\
  forall (mode : bool) (e' : nat),
    exists sig', NoiseBandSynth_call (nb_train mode s) e' a
                 = Some (sig', nb_train mode s').
Proof.
  intros H.
  pose proof H as Hs; apply NoiseBandSynth_call_shape in Hs as (_ & _ & Hd2).
  pose proof H as Hs; apply NoiseBandSynth_call_state in Hs as (HM & ->).
  rewrite Hd2; simpl; repeat split.
  - apply Nat.mod_upper_bound; exact HM.
  - intros mode e'.
    assert (Hok : exists r, NoiseBandSynth_call (nb_train mode s) e' a = Some r).
    { apply NoiseBandSynth_call_ok.
      exact (proj1 (NoiseBandSynth_call_ok s e a) (ex_intro _ _ H)). }
    destruct Hok as [[sig' s''] Hc]; exists sig'.
    rewrite Hc; f_equal; f_equal.
    apply NoiseBandSynth_call_state in Hc as (_ & ->); reflexivity.
Qed.

(** C2 (amended).  In evaluation mode, rendering a trajectory in one call
    gives the signal and the final read offset of rendering it as two
    consecutive calls, provided that upsampling the whole trajectory
    agrees with the concatenation of the separately upsampled chunks. *)
Theorem noise_band_continuity (s : NoiseBandSynth) (e1 e2 e : nat)
    (a1 a2 out12 : tensor3) (s12 : NoiseBandSynth) :
  nb_training s = false ->
  dim0 a1 = dim0 a2 -> dim1 a1 = dim1 a2 ->
  teq3 (interp_up (nb_resampling_factor s) (cat a1 a2))
       (cat (interp_up (nb_resampling_factor s) a1)
            (interp_up (nb_resampling_factor s) a2)) ->
  NoiseBandSynth_two_calls s e1 e2 a1 a2 = Some (out12, s12) ->
  exists out,
    NoiseBandSynth_call s e (cat a1 a2) = Some (out, s12) /\ teq3 out out12.
Proof.
  intros Ht HB HC Hup H.
  unfold NoiseBandSynth_two_calls in H.
  apply bind_Some in H as ([out1 s1] & H1 & H).
  apply bind_Some in H as ([out2 s2] & H2 & H).
  injection H as <- <-.
  pose proof (proj1 (NoiseBandSynth_call_ok s e1 a1) (ex_intro _ _ H1))
    as (Hc1 & Hl1 & Hr & HM & Hbd).
  pose proof H1 as Hs1; apply NoiseBandSynth_call_state in Hs1 as (_ & Hs1).
  pose proof H2 as Hs2; apply NoiseBandSynth_call_state in Hs2 as (_ & Hs2).
  assert (Hok : exists r, NoiseBandSynth_call s e (cat a1 a2) = Some r).
  { apply NoiseBandSynth_call_ok; simpl; repeat split; auto; lia. }
  destruct Hok as [[out sW] HW].
  pose proof HW as HsW; apply NoiseBandSynth_call_state in HsW as (_ & HsW).
  assert (Hst : sW = s2).
  { rewrite HsW, Hs2, Hs1; simpl.
    unfold nb_set_shift; simpl; f_equal.
    rewrite Nat.Div0.add_mod_idemp_l; f_equal; lia. }
  exists out; split; [rewrite HW, Hst; reflexivity|].
  assert (Ht1 : nb_training s1 = false) by (rewrite Hs1; exact Ht).
  apply (NoiseBandSynth_call_eval _ _ _ _ _ Ht) in HW as (C & HCW & HW0 & HW1 & HW2 & HWat).
  apply (NoiseBandSynth_call_eval _ _ _ _ _ Ht) in H1 as (C1 & HC1 & H10 & H11 & H12 & H1at).
  apply (NoiseBandSynth_call_eval _ _ _ _ _ Ht1) in H2 as (C2 & HC2 & H20 & H21 & H22 & H2at).
  rewrite Hs1 in HC2, H22, H2at.
  unfold nb_noisebands in *.
  cbn [nb_set_shift nb_filterbank nb_resampling_factor nb_noisebands_shift
       cat dim0 dim1 dim2] in HC2, H22, H2at, HCW, HW0, HW2, HWat.
  rewrite <- HC in HC2.
  assert (C1 = C) by congruence; assert (C2 = C) by congruence; subst C1 C2.
  destruct Hup as (_ & _ & _ & Hup).
  cbn [dim0 dim1 dim2 interp_up cat] in Hup.
  unfold teq3; cbn [dim0 dim1 dim2 cat]; repeat split; try lia.
  intros b c0 t Hb Hc0 Hlt.
  rewrite HWat by lia.
  cbn [at3 cat].
  destruct (t <? dim2 out1) eqn:Et.
  - apply Nat.ltb_lt in Et.
    rewrite H1at by lia.
    apply rsum_ext; intros c Hc.
    rewrite Hup by (try lia; eapply bidx_bound; eauto).
    cbn [at3 cat dim2 interp_up].
    assert (E : (t <? dim2 a1 * nb_resampling_factor s) = true)
      by (apply Nat.ltb_lt; lia).
    rewrite E; reflexivity.
  - apply Nat.ltb_ge in Et.
    rewrite H2at by lia.
    apply rsum_ext; intros c Hc.
    rewrite Hup by (try lia; eapply bidx_bound; eauto).
    cbn [at3 cat dim2 interp_up].
    assert (E : (t <? dim2 a1 * nb_resampling_factor s) = false)
      by (apply Nat.ltb_ge; lia).
    rewrite E, H12, <- HC.
    f_equal; f_equal.
    rewrite Nat.Div0.add_mod_idemp_r; f_equal; lia.
Qed.

(** Interpolating a trajectory that is constant in time gives that constant. *)
Lemma interp_up_constant (r : nat) (x : tensor3) (b c t : nat) (v : R) :
  (forall i, at3 x b c i = v) -> at3 (interp_up r x) b c t = v.
Proof.
  intros H; cbn [at3 interp_up]; rewrite !H; ring.
Qed.

(** Upsampling commutes with chunking on constant trajectories. *)
Lemma interp_commutes_full (r d0 d1 l1 l2 : nat) (v : R) :
  teq3 (interp_up r (cat (full d0 d1 l1 v) (full d0 d1 l2 v)))
       (cat (interp_up r (full d0 d1 l1 v)) (interp_up r (full d0 d1 l2 v))).
Proof.
  unfold teq3; cbn [dim0 dim1 dim2 interp_up cat full]; repeat split; try lia.
  intros b c t _ _ _.
  rewrite (interp_up_constant r _ b c t v).
  - cbn [at3 cat]; destruct (_ <? _); rewrite (interp_up_constant r _ _ _ _ v); reflexivity.
  - intros i; cbn [at3 cat full]; destruct (_ <? _); reflexivity.
Qed.

(** With resampling factor 1 the interpolation is the identity. *)
Lemma interp_up_1 (x : tensor3) : teq3 (interp_up 1 x) x.
Proof.
  unfold teq3; cbn [dim0 dim1 dim2 interp_up]; repeat split; try lia.
  intros b c t _ _ _; cbn [at3 interp_up].
  unfold interp_lambda1, interp_i1, interp_i0, src2.
  replace (2 * t + 1 - 1) with (t * (2 * 1)) by lia.
  rewrite Nat.Div0.mod_mul, Nat.div_mul by lia.
  simpl Z.of_nat. lra.
Qed.

(** C2, witness: one band of three samples, factor 2, a trajectory of two
    control steps of amplitude 1 split into 1 + 1. *)
Lemma noise_band_continuity_witness :
  exists out12 s12 out,
    NoiseBandSynth_two_calls nb_1x3 0 0 (full 1 1 1 1) (full 1 1 1 1)
      = Some (out12, s12) /\
    NoiseBandSynth_call nb_1x3 0 (cat (full 1 1 1 1) (full 1 1 1 1))
      = Some (out, s12) /\
    teq3 out out12.
Proof.
  assert (H : exists r, NoiseBandSynth_two_calls nb_1x3 0 0 (full 1 1 1 1) (full 1 1 1 1) = Some r).
  { eexists; reflexivity. }
  destruct H as [[out12 s12] H].
  destruct (noise_band_continuity nb_1x3 0 0 0 (full 1 1 1 1) (full 1 1 1 1)
              out12 s12 eq_refl eq_refl eq_refl
              (interp_commutes_full 2 1 1 1 1 1) H) as (out & Hc & Heq).
  exists out12, s12, out; auto.
Defined.

(** C2, counterexample: one band, factor 2, the trajectory (0, 1) split
    into 1 + 1.  The single call interpolates across the boundary
    (0, 1/4, 3/4, 1); each chunk call clamps at its own edges (0, 0) and
    (1, 1).  The two signals differ by 1/2 at output step 1. *)
Lemma noise_band_continuity_fails :
  exists out12 s12 out,
    NoiseBandSynth_two_calls nb_1x2 0 0 (full 1 1 1 0) (full 1 1 1 1)
      = Some (out12, s12) /\
    NoiseBandSynth_call nb_1x2 0 (cat (full 1 1 1 0) (full 1 1 1 1))
      = Some (out, s12) /\
    (at3 out 0 0 1 - at3 out12 0 0 1 = 1 / 2)%R /\
    ~ teq3 out out12.
Proof.
  eexists; eexists; eexists.
  split; [reflexivity|].
  split; [reflexivity|].
  match goal with
  | |- (?x - ?y = _)%R /\ ~ teq3 ?o ?o' =>
      assert (Hd : (x - y = 1 / 2)%R)
  end.
  { cbn; unfold interp_lambda1, src2; simpl; lra. }
  split; [exact Hd|].
  intros (_ & _ & _ & Heq).
  specialize (Heq 0 0 1).
  cbn [dim0 dim1 dim2 sum_dim1 cat] in Heq.
  rewrite Heq in Hd by (cbn; lia).
  lra.
Qed.

(** C7, witness: four bands of sixteen samples in training mode, factor 2,
    eleven control steps: the offset goes from 0 to 22 mod 16 = 6. *)
Lemma read_offset_invariant_witness :
  exists sig s',
    NoiseBandSynth_call nb_4x16 5 (full 1 4 11 1) = Some (sig, s') /\
    dim2 sig = 22 /\
    nb_noisebands_shift s' = 6 /\
    nb_noisebands_shift s' < 16 /\
    forall (mode : bool) (e' : nat),
      exists sig', NoiseBandSynth_call (nb_train mode nb_4x16) e' (full 1 4 11 1)
                   = Some (sig', nb_train mode s').
Proof.
  assert (H : exists r, NoiseBandSynth_call nb_4x16 5 (full 1 4 11 1) = Some r)
    by (eexists; reflexivity).
  destruct H as [[sig s'] H].
  exists sig, s'; split; [exact H|].
  destruct (read_offset_invariant nb_4x16 5 (full 1 4 11 1) sig s' H)
    as (Hd & Hs & Hlt & Hm).
  repeat split; try assumption.
  rewrite Hs, Hd; reflexivity.
Defined.

(** C8.  On the same noise-band buffer, stored offset, mode, random draw
    and amplitudes, [NoiseBandNet._synthesize] and [NoiseBandSynth.__call__]
    fail together or return the same signal and the same new offset. *)
Theorem synthesize_refines_NoiseBandSynth (r n : nat) (fb : FilterBank)
    (mode : bool) (shift e : nat) (a : tensor3) :
  option_map (fun p => (fst p, Net.noisebands_shift (snd p)))
    (Net.synthesize (Net.mkNoiseBandNet r (noisebands fb) mode shift) e a)
  = option_map (fun p => (fst p, nb_noisebands_shift (snd p)))
    (NoiseBandSynth_call (mkNoiseBandSynth r n fb mode shift) e a).
Proof.
  unfold Net.synthesize, NoiseBandSynth_call, nb_noisebands.
  cbn [Net.resampling_factor Net.net_noisebands Net.training Net.noisebands_shift
       nb_resampling_factor nb_filterbank nb_training nb_noisebands_shift].
  destruct (interpolate a r) as [up|]; [|reflexivity].
  cbn [bind].
  destruct (if mode then _ else _) as [nbs|]; [|reflexivity].
  cbn [bind].
  destruct (ceil_div _ _); [|reflexivity].
  cbn [bind].
  destruct (py_mod _ _); [|reflexivity].
  cbn [bind].
  destruct (mul _ _); reflexivity.
Qed.

(** In training mode the draw decides the read position: the same call
    reads the band from sample 0 or from sample 1, and stores the same
    offset. *)
Lemma training_rotation_depends_on_draw :
  exists sig0 sig1 s',
    NoiseBandSynth_call nb_training_1x2 0 (full 1 1 1 1) = Some (sig0, s') /\
    NoiseBandSynth_call nb_training_1x2 1 (full 1 1 1 1) = Some (sig1, s') /\
    at3 sig0 0 0 0 = 1%R /\ at3 sig1 0 0 0 = 2%R /\
    nb_noisebands_shift s' = 1.
Proof.
  eexists; eexists; eexists.
  split; [reflexivity|]; split; [reflexivity|].
  repeat split; cbn; unfold interp_lambda1, src2; simpl; lra.
Qed.

End NoiseBandFacts.

(** ** SynthRegister *)

Section RegisterFacts.

Lemma split_Some (x : tensor3) (sizes : list nat) :
  (exists l, split x sizes = Some l) <-> list_sum sizes = dim2 x.
Proof.
  unfold split; destruct (list_sum sizes =? dim2 x) eqn:E.
  - apply Nat.eqb_eq in E; split; eauto.
  - apply Nat.eqb_neq in E; split; [intros [l H]; discriminate | tauto].
Qed.

(** A generator's slice can be split exactly when the flat tensor is at
    least as wide as the generator. *)
Lemma split_slice_ok (params : tensor3) (synth : BaseSynth) :
  (exists l, split (slice_last params 0 (0 + total_params synth))
               (map snd (call_params synth)) = Some l)
  <-> total_params synth <= dim2 params.
Proof.
  rewrite split_Some; unfold total_params; cbn [dim2 slice_last]; lia.
Qed.

Lemma split_params_loop_ok (todo : list BaseSynth) (params : tensor3)
    (acc : list (list tensor3)) :
  (exists l, split_params_loop todo params 0 acc = Some l) <->
  Forall (fun g => total_params g <= dim2 params) todo.
Proof.
  revert acc; induction todo as [|g rest IH]; intros acc; cbn [split_params_loop].
  - split; [constructor | eauto].
  - split.
    + intros [l H]; apply bind_Some in H as (sp & Hsp & H).
      constructor.
      * apply split_slice_ok; eauto.
      * apply (IH (acc ++ [sp])); eauto.
    + intros HF; inversion HF as [|? ? Hg Hrest]; subst.
      apply split_slice_ok in Hg as [sp Hsp]; rewrite Hsp; cbn [bind].
      apply IH; assumption.
Qed.

Lemma total_params_le_register (g : BaseSynth) (l : list BaseSynth) :
  In g l -> total_params g <= list_sum (map total_params l).
Proof.
  induction l as [|h l IH]; simpl; [tauto|].
  intros [-> | H]; [lia | apply IH in H; lia].
Qed.

(** C4 (amended).  [split_params] compares no width with
    [total_params()]: a call whose last dimension is at least
    [total_params()] succeeds, a wider tensor included, and a call whose
    last dimension is smaller than the width of one registered generator
    fails, with the size error of [torch.split]. *)
Theorem split_params_width (self : SynthRegister) (params : tensor3) :
  (register_total_params self <= dim2 params ->
   exists l, split_params self params = Some l) /\
  ((exists g, In g (synths self) /\ dim2 params < total_params g) ->
   split_params self params = None).
Proof.
  unfold split_params, register_total_params; split.
  - intros H; apply split_params_loop_ok, Forall_forall.
    intros g Hg; apply total_params_le_register in Hg; lia.
  - intros (g & Hg & Hlt).
    destruct (split_params_loop (synths self) params 0 []) as [l|] eqn:E;
      [|reflexivity].
    assert (HF : Forall (fun g => total_params g <= dim2 params) (synths self))
      by (apply (split_params_loop_ok _ _ []); eauto).
    rewrite Forall_forall in HF; apply HF in Hg; lia.
Qed.

(** C4, witness: widths 3 >= 3 and 1 < 2. *)
Lemma split_params_width_witness :
  (exists l, split_params reg_noise_sine flat_10_20_30 = Some l) /\
  split_params reg_noise_sine (full 1 1 1 10) = None.
Proof.
  split.
  - apply (proj1 (split_params_width reg_noise_sine flat_10_20_30)).
    cbn; lia.
  - apply (proj2 (split_params_width reg_noise_sine (full 1 1 1 10))).
    exists (Sine (ss_1 false)); split; [cbn; auto | cbn; lia].
Defined.

(** C4, counterexample: a register of total width 1 splits a tensor of
    width 3 without an error and drops the two trailing channels. *)
Lemma split_params_no_width_check :
  register_total_params reg_noise = 1 /\
  dim2 flat_10_20_30 = 3 /\
  exists g1, split_params reg_noise flat_10_20_30 = Some [[g1]] /\
             teq3 g1 (full 1 1 1 10).
Proof.
  split; [reflexivity|]; split; [reflexivity|].
  eexists; split; [reflexivity|].
  unfold teq3; cbn [dim0 dim1 dim2 slice_last full flat_10_20_30 cat];
    repeat split; try reflexivity.
  intros b c t _ _ Ht; cbn in Ht.
  assert (t = 0) by lia; subst t; cbn; reflexivity.
Qed.

(** C1.  The round trip fails on the code: with a noise-band generator of
    width 1 and a sine generator of width 1 + 1, the flat tensor
    10 | 20 | 30 comes back as (10) and (10, 20): the second generator is
    sliced from offset 0 again, not from offset 1. *)
Theorem split_params_offset_never_advances :
  register_total_params reg_noise_sine = 3 /\
  dim2 flat_10_20_30 = 3 /\
  exists g1 f2 a2,
    split_params reg_noise_sine flat_10_20_30 = Some [[g1]; [f2; a2]] /\
    teq3 g1 (full 1 1 1 10) /\
    teq3 f2 (full 1 1 1 10) /\ teq3 a2 (full 1 1 1 20) /\
    ~ teq3 f2 (full 1 1 1 20) /\ ~ teq3 a2 (full 1 1 1 30).
Proof.
  split; [reflexivity|]; split; [reflexivity|].
  eexists; eexists; eexists; split; [reflexivity|].
  assert (E : forall x v, dim0 x = 1 -> dim1 x = 1 -> dim2 x = 1 ->
                at3 x 0 0 0 = v -> teq3 x (full 1 1 1 v)).
  { intros x v H0 H1 H2 Hv; unfold teq3; cbn [dim0 dim1 dim2 full].
    repeat split; try assumption.
    intros b c t Hb Hc Ht.
    assert (b = 0) by lia; assert (c = 0) by lia; assert (t = 0) by lia.
    subst b c t; exact Hv. }
  assert (N : forall x v w, at3 x 0 0 0 = v -> v <> w -> dim0 x = 1 ->
                dim1 x = 1 -> dim2 x = 1 -> ~ teq3 x (full 1 1 1 w)).
  { intros x v w Hv Hvw H0 H1 H2 (_ & _ & _ & H).
    apply Hvw; rewrite <- Hv; apply H; lia. }
  split; [apply E; reflexivity|].
  split; [apply E; reflexivity|].
  split; [apply E; reflexivity|].
  split; [apply (N _ 10%R); try reflexivity; lra
         | apply (N _ 20%R); try reflexivity; lra].
Qed.

Lemma teq3_intro (x y : tensor3) :
  dim0 x = dim0 y -> dim1 x = dim1 y -> dim2 x = dim2 y ->
  (forall b c t, b < dim0 x -> c < dim1 x -> t < dim2 x ->
     at3 x b c t = at3 y b c t) ->
  teq3 x y.
Proof. unfold teq3; auto. Qed.

(** One slot: the slice of the generator is the slot itself. *)
Lemma split_one_slot (x : tensor3) (w : nat) :
  dim2 x = w ->
  exists y, split (slice_last x 0 (0 + (w + 0))) [w] = Some [y] /\ teq3 y x.
Proof.
  intros H; unfold split; cbn [list_sum fold_right dim2 slice_last].
  assert (E : (w + 0 =? Nat.min (0 + (w + 0)) (dim2 x) - Nat.min 0 (dim2 x)) = true)
    by (apply Nat.eqb_eq; lia).
  rewrite E; cbn [split_sections]; eexists; split; [reflexivity|].
  apply teq3_intro; cbn [dim0 dim1 dim2 slice_last at3]; try lia.
  intros b c t _ _ _; f_equal; lia.
Qed.

(** Two slots: the two sections are the two slots. *)
Lemma split_two_slots (x y : tensor3) (w1 w2 : nat) :
  dim2 x = w1 -> dim2 y = w2 -> dim0 x = dim0 y -> dim1 x = dim1 y ->
  exists x' y',
    split (slice_last (cat x y) 0 (0 + (w1 + (w2 + 0)))) [w1; w2]
      = Some [x'; y'] /\
    teq3 x' x /\ teq3 y' y.
Proof.
  intros Hx Hy H0 H1; unfold split; cbn [list_sum fold_right dim2 slice_last cat].
  assert (E : (w1 + (w2 + 0)
               =? Nat.min (0 + (w1 + (w2 + 0))) (dim2 x + dim2 y)
                  - Nat.min 0 (dim2 x + dim2 y)) = true)
    by (apply Nat.eqb_eq; lia).
  rewrite E; cbn [split_sections]; eexists; eexists; split; [reflexivity|].
  split; apply teq3_intro; cbn [dim0 dim1 dim2 slice_last cat at3]; try lia.
  - intros b c t _ _ Ht.
    match goal with
    | |- (if ?i <? _ then _ else _) = _ => replace i with t by lia
    end.
    assert (E1 : (t <? dim2 x) = true) by (apply Nat.ltb_lt; lia).
    rewrite E1; reflexivity.
  - intros b c t _ _ Ht.
    match goal with
    | |- (if ?i <? _ then _ else _) = _ =>
        replace i with (dim2 x + t) by lia
    end.
    assert (E1 : (dim2 x + t <? dim2 x) = false) by (apply Nat.ltb_ge; lia).
    rewrite E1; f_equal; lia.
Qed.

(** With a single registered generator the round trip holds: the slot
    tensors, concatenated in the order of [call_params], come back. *)
Lemma split_params_single_round_trip :
  (forall (s : NoiseBandSynth) (amplitudes : tensor3),
     dim2 amplitudes = nb_n_filters s ->
     exists a',
       split_params (register SynthRegister_init (NoiseBand s)) amplitudes
         = Some [[a']] /\ teq3 a' amplitudes) /\
  (forall (s : SineSynth) (frequencies amplitudes : tensor3),
     dim2 frequencies = ss_n_sines s -> dim2 amplitudes = ss_n_sines s ->
     dim0 frequencies = dim0 amplitudes -> dim1 frequencies = dim1 amplitudes ->
     exists f' a',
       split_params (register SynthRegister_init (Sine s))
         (cat frequencies amplitudes)
         = Some [[f'; a']] /\ teq3 f' frequencies /\ teq3 a' amplitudes) /\
  (forall (s : HarmonicSynth) (fundamental amplitudes : tensor3),
     dim2 fundamental = 1 -> dim2 amplitudes = hs_n_harmonics s ->
     dim0 fundamental = dim0 amplitudes -> dim1 fundamental = dim1 amplitudes ->
     exists f' a',
       split_params (register SynthRegister_init (Harmonic s))
         (cat fundamental amplitudes)
         = Some [[f'; a']] /\ teq3 f' fundamental /\ teq3 a' amplitudes).
Proof.
  split; [|split].
  - intros s x Hx.
    destruct (split_one_slot x (nb_n_filters s) Hx) as (y & Hs & Hy).
    exists y; split; [|exact Hy].
    unfold split_params; cbn [register SynthRegister_init synths app
      split_params_loop total_params call_params NoiseBandSynth_call_params
      map snd list_sum fold_right].
    rewrite Hs; reflexivity.
  - intros s x y Hx Hy H0 H1.
    destruct (split_two_slots x y _ _ Hx Hy H0 H1) as (x' & y' & Hs & Hx' & Hy').
    exists x', y'; split; [|auto].
    unfold split_params; cbn [register SynthRegister_init synths app
      split_params_loop total_params call_params SineSynth_call_params
      map snd list_sum fold_right].
    rewrite Hs; reflexivity.
  - intros s x y Hx Hy H0 H1.
    destruct (split_two_slots x y _ _ Hx Hy H0 H1) as (x' & y' & Hs & Hx' & Hy').
    exists x', y'; split; [|auto].
    unfold split_params; cbn [register SynthRegister_init synths app
      split_params_loop total_params call_params HarmonicSynth_call_params
      map snd list_sum fold_right].
    rewrite Hs; reflexivity.
Qed.

End RegisterFacts.

(** ** SineSynth *)

Section SineFacts.

Lemma fmod_shift (x d : R) : exists k : Z, fmod x d = (x + IZR k * d)%R.
Proof.
  exists (- Zfloor (x / d))%Z; unfold fmod; rewrite opp_IZR; ring.
Qed.

Lemma sin_period_Z (x : R) (k : Z) : sin (x + IZR k * (2 * PI)) = sin x.
Proof.
  destruct (Z_le_gt_dec 0 k) as [Hk|Hk].
  - rewrite <- (sin_period x (Z.to_nat k)).
    rewrite INR_IZR_INZ, Z2Nat.id by exact Hk.
    f_equal; ring.
  - rewrite <- (sin_period (x + IZR k * (2 * PI)) (Z.to_nat (- k))).
    rewrite INR_IZR_INZ, Z2Nat.id by lia.
    rewrite opp_IZR; f_equal; ring.
Qed.

Lemma sin_fmod (x y : R) : sin (fmod x (2 * PI) + y) = sin (x + y).
Proof.
  destruct (fmod_shift x (2 * PI)) as [k ->].
  replace (x + IZR k * (2 * PI) + y)%R with (x + y + IZR k * (2 * PI))%R by ring.
  apply sin_period_Z.
Qed.

(** A stale phase buffer is replaced by zeros before anything else. *)
Lemma SineSynth_call_stale (s : SineSynth) (f a : tensor3) :
  ss_streaming s = true -> phases_stale s (dim0 f) = true ->
  SineSynth_call s f a
  = SineSynth_call (ss_set_phases (zeros2 (dim0 f) (ss_n_sines s)) s) f a.
Proof.
  intros Hs Hp; unfold SineSynth_call.
  rewrite Hs, Hp.
  cbn [andb ss_streaming ss_set_phases phases_stale ss_phases zeros2 rows
       ss_n_sines ss_resampling_factor ss_fs].
  rewrite Nat.eqb_refl, Hs.
  cbn [andb negb ss_streaming ss_set_phases phases_stale ss_phases zeros2 rows
       ss_n_sines ss_resampling_factor ss_fs].
  rewrite Hs; reflexivity.
Qed.

(** Outside streaming mode the state is neither read nor written. *)
Lemma SineSynth_call_offline (s : SineSynth) (f a : tensor3) :
  ss_streaming s = false ->
  SineSynth_call s f a =
  (F <- interpolate f (ss_resampling_factor s) ;;
   A <- interpolate a (ss_resampling_factor s) ;;
   product <- mul A
     (sin3 (remainder3
        (cumsum (div_scalar (mul_scalar (mul_scalar F 2) PI) (IZR (ss_fs s))))
        (2 * PI))) ;;
   Some (sum_dim1 product, s)).
Proof.
  intros Hs; unfold SineSynth_call; rewrite Hs; cbn [andb]; rewrite Hs; reflexivity.
Qed.


Lemma SineSynth_call_streaming (s : SineSynth) (P : tensor2) (f a : tensor3) :
  ss_streaming s = true -> ss_phases s = Some P -> rows P = dim0 f ->
  SineSynth_call s f a =
  (F <- interpolate f (ss_resampling_factor s) ;;
   A <- interpolate a (ss_resampling_factor s) ;;
   shifted <- add
     (permute_201 (remainder3
        (cumsum (div_scalar (mul_scalar (mul_scalar F 2) PI) (IZR (ss_fs s))))
        (2 * PI)))
     (unsqueeze0 P) ;;
   last <- select_last (permute_120 shifted) ;;
   stored <- copy_ P (remainder2 last (2 * PI)) ;;
   product <- mul A (sin3 (permute_120 shifted)) ;;
   Some (sum_dim1 product, ss_set_phases stored s)).
Proof.
  intros Hs HP Hrows; unfold SineSynth_call, phases_stale.
  rewrite Hs, HP, Hrows, Nat.eqb_refl; cbn [andb negb]; rewrite Hs, HP.
  destruct (interpolate f _); [|reflexivity]; cbn [bind].
  destruct (interpolate a _); [|reflexivity]; cbn [bind].
  destruct (add _ _); [|reflexivity]; cbn [bind].
  destruct (select_last _); [|reflexivity]; cbn [bind].
  destruct (copy_ _ _); reflexivity.
Qed.

(** One streaming call on inputs of the shape of the phase buffer. *)
Lemma SineSynth_call_streaming_step (s : SineSynth) (P : tensor2) (f a : tensor3) :
  ss_streaming s = true -> ss_phases s = Some P ->
  rows P = dim0 f -> cols P = dim1 f ->
  chunk_shape (dim0 f) (dim1 f) (f, a) ->
  dim1 f <> 0 -> ss_resampling_factor s <> 0 ->
  exists sig P',
    SineSynth_call s f a = Some (sig, ss_set_phases P' s) /\
    dim0 sig = dim0 f /\ dim1 sig = 1 /\
    dim2 sig = dim2 f * ss_resampling_factor s /\
    rows P' = dim0 f /\ cols P' = dim1 f /\
    (forall b c0 t, b < dim0 f -> t < dim2 f * ss_resampling_factor s ->
       at3 sig b c0 t =
       rsum (dim1 f) (fun c =>
         (at3 (interp_up (ss_resampling_factor s) a) b c t
          * sin (fmod (rsum (S t) (fun i =>
                    at3 (interp_up (ss_resampling_factor s) f) b c i
                    * 2 * PI / IZR (ss_fs s))) (2 * PI)
                 + at2 P b c))%R)) /\
    (forall b c, b < dim0 f -> c < dim1 f ->
       at2 P' b c =
       fmod (fmod (rsum (dim2 f * ss_resampling_factor s) (fun i =>
                    (at3 (interp_up (ss_resampling_factor s) f) b c i
                     * 2 * PI / IZR (ss_fs s))%R)) (2 * PI)
             + at2 P b c) (2 * PI)).
Proof.
  intros Hs HP Hrows Hcols (_ & _ & Ha0 & Ha1 & Ha2 & HL) Hn Hr.
  cbn [fst snd] in *.
  rewrite (SineSynth_call_streaming s P f a Hs HP Hrows).
  set (r := ss_resampling_factor s) in *.
  assert (HF : interpolate f r = Some (interp_up r f))
    by (apply interpolate_Some; auto).
  assert (HA : interpolate a r = Some (interp_up r a))
    by (apply interpolate_Some; repeat split; auto; congruence).
  rewrite HF, HA; cbn [bind].
  unfold add, mul, bcast.
  cbn [dim0 dim1 dim2 permute_201 remainder3 map3 cumsum div_scalar mul_scalar
       interp_up unsqueeze0].
  rewrite Hrows, Hcols, bdim_one_r, !bdim_same; cbn [bind].
  unfold select_last.
  cbn [dim0 dim1 dim2 permute_120].
  assert (HN : (dim2 f * r =? 0) = false) by (apply Nat.eqb_neq; nia).
  rewrite HN; cbn [bind].
  unfold copy_.
  cbn [rows cols remainder2 map2].
  rewrite Hrows, Hcols, !Nat.eqb_refl; cbn [orb andb bind].
  cbn [dim0 dim1 dim2 sin3 map3 permute_120].
  rewrite Ha0, Ha1, Ha2, !bdim_same; cbn [bind].
  eexists; eexists; split; [reflexivity|].
  cbn [dim0 dim1 dim2 sum_dim1 rows cols].
  repeat split; try reflexivity.
  - intros b c0 t Hb Ht.
    cbn [at3 sum_dim1 dim1].
    apply rsum_ext; intros c Hc.
    cbn [at3 at2 permute_120 permute_201 sin3 map3 remainder3 cumsum
         div_scalar mul_scalar unsqueeze0 dim0 dim1 dim2 interp_up].
    rewrite !(bidx_lt _ _ Hb), !(bidx_lt _ _ Hc), !(bidx_lt _ _ Ht).
    reflexivity.
  - intros b c Hb Hc.
    cbn [at3 at2 permute_120 permute_201 sin3 map3 remainder3 cumsum
         div_scalar mul_scalar unsqueeze0 dim0 dim1 dim2 interp_up].
    cbn [remainder2 map2 at2].
    rewrite !(bidx_lt _ _ Hb), !(bidx_lt _ _ Hc).
    assert (HN' : dim2 f * r - 1 < dim2 f * r) by (apply Nat.eqb_neq in HN; lia).
    rewrite (bidx_lt _ _ HN').
    replace (S (dim2 f * r - 1)) with (dim2 f * r) by lia.
    reflexivity.
Qed.


Lemma sin_fmod_0 (x : R) : sin (fmod x (2 * PI)) = sin x.
Proof.
  rewrite <- (Rplus_0_r (fmod x (2 * PI))), sin_fmod; f_equal; ring.
Qed.

Lemma rsum_app (m n : nat) (h : nat -> R) :
  rsum (m + n) h = (rsum m h + rsum n (fun i => h (m + i)%nat))%R.
Proof.
  induction n as [|n IH].
  - rewrite Nat.add_0_r; cbn [rsum]; ring.
  - rewrite Nat.add_succ_r; cbn [rsum]; rewrite IH; ring.
Qed.

(** The running sum over a concatenation. *)
Lemma rsum_cat (X Y : tensor3) (g : R -> R) (b c n : nat) :
  rsum (dim2 X + n) (fun i => g (at3 (cat X Y) b c i))
  = (rsum (dim2 X) (fun i => g (at3 X b c i))
     + rsum n (fun i => g (at3 Y b c i)))%R.
Proof.
  rewrite rsum_app; f_equal; apply rsum_ext; intros i Hi; cbn [at3 cat].
  - assert (E : (i <? dim2 X) = true) by (apply Nat.ltb_lt; exact Hi).
    rewrite E; reflexivity.
  - assert (E : (dim2 X + i <? dim2 X) = false) by (apply Nat.ltb_ge; lia).
    rewrite E; do 2 f_equal; lia.
Qed.

Lemma rsum_cat_prefix (X Y : tensor3) (g : R -> R) (b c n : nat) :
  n <= dim2 X ->
  rsum n (fun i => g (at3 (cat X Y) b c i)) = rsum n (fun i => g (at3 X b c i)).
Proof.
  intros Hn; apply rsum_ext; intros i Hi; cbn [at3 cat].
  assert (E : (i <? dim2 X) = true) by (apply Nat.ltb_lt; lia).
  rewrite E; reflexivity.
Qed.

Lemma oscillator_bank_teq (fs : Z) (F F' A A' : tensor3) :
  teq3 F F' -> teq3 A A' ->
  dim0 A = dim0 F -> dim1 A = dim1 F -> dim2 A = dim2 F ->
  teq3 (oscillator_bank fs F A) (oscillator_bank fs F' A').
Proof.
  intros (F0 & F1 & F2 & HF) (A0 & A1 & A2 & HA) E0 E1 E2.
  unfold teq3; cbn [dim0 dim1 dim2 oscillator_bank]; repeat split; auto.
  intros b c0 t Hb _ Ht; cbn [at3 oscillator_bank].
  rewrite <- F1; apply rsum_ext; intros c Hc.
  rewrite HA by lia; do 2 f_equal.
  apply rsum_ext; intros i Hi; rewrite HF by lia; reflexivity.
Qed.

Lemma cat_list_dims (x : tensor3) (ys : list tensor3) :
  dim0 (cat_list x ys) = dim0 x /\ dim1 (cat_list x ys) = dim1 x /\
  dim2 (cat_list x ys) = dim2 x + list_sum (map dim2 ys).
Proof.
  unfold cat_list; revert x; induction ys as [|y ys IH]; intros x; cbn [fold_left].
  - simpl; lia.
  - destruct (IH (cat x y)) as (H0 & H1 & H2).
    rewrite H0, H1, H2; simpl; lia.
Qed.

(** An offline call renders the oscillator bank on the upsampled inputs. *)
Lemma SineSynth_call_offline_spec (s : SineSynth) (f a : tensor3) :
  ss_streaming s = false ->
  chunk_shape (dim0 f) (dim1 f) (f, a) ->
  dim1 f <> 0 -> ss_resampling_factor s <> 0 ->
  exists sig,
    SineSynth_call s f a = Some (sig, s) /\
    teq3 sig (oscillator_bank (ss_fs s)
                (interp_up (ss_resampling_factor s) f)
                (interp_up (ss_resampling_factor s) a)).
Proof.
  intros Hs (_ & _ & Ha0 & Ha1 & Ha2 & HL) Hn Hr.
  cbn [fst snd] in *.
  rewrite (SineSynth_call_offline s f a Hs).
  set (r := ss_resampling_factor s) in *.
  assert (HF : interpolate f r = Some (interp_up r f))
    by (apply interpolate_Some; auto).
  assert (HA : interpolate a r = Some (interp_up r a))
    by (apply interpolate_Some; repeat split; auto; congruence).
  rewrite HF, HA; cbn [bind].
  unfold mul, bcast.
  cbn [dim0 dim1 dim2 sin3 remainder3 map3 cumsum div_scalar mul_scalar interp_up].
  rewrite Ha0, Ha1, Ha2, !bdim_same; cbn [bind].
  eexists; split; [reflexivity|].
  unfold teq3; cbn [dim0 dim1 dim2 sum_dim1 oscillator_bank interp_up].
  repeat split; try reflexivity.
  intros b c0 t Hb _ Ht.
  cbn [at3 sum_dim1 dim1 oscillator_bank interp_up].
  apply rsum_ext; intros c Hc.
  cbn [at3 sin3 map3 remainder3 cumsum div_scalar mul_scalar dim0 dim1 dim2 interp_up].
  rewrite !(bidx_lt _ _ Hb), !(bidx_lt _ _ Hc), !(bidx_lt _ _ Ht).
  rewrite sin_fmod_0; reflexivity.
Qed.

End SineFacts.

Section SineChunks.

(** The oscillator bank on a concatenation: the prefix is unchanged and
    the suffix continues from the phase the prefix has accumulated. *)
Lemma oscillator_bank_cat (fs : Z) (FU F AU A : tensor3) (b c0 t : nat) :
  dim2 AU = dim2 FU ->
  at3 (oscillator_bank fs (cat FU F) (cat AU A)) b c0 t =
  if t <? dim2 FU then at3 (oscillator_bank fs FU AU) b c0 t
  else rsum (dim1 FU) (fun c =>
         (at3 A b c (t - dim2 FU)
          * sin (rsum (dim2 FU) (fun i => at3 FU b c i * 2 * PI / IZR fs)
                 + rsum (S (t - dim2 FU)) (fun i => at3 F b c i * 2 * PI / IZR fs)))%R).
Proof.
  intros HA; cbn [at3 oscillator_bank dim1 cat].
  destruct (t <? dim2 FU) eqn:Et.
  - apply Nat.ltb_lt in Et.
    apply rsum_ext; intros c Hc.
    rewrite HA, (proj2 (Nat.ltb_lt _ _) Et); f_equal; f_equal.
    apply (rsum_cat_prefix FU F (fun v => (v * 2 * PI / IZR fs)%R) b c (S t)); lia.
  - apply Nat.ltb_ge in Et.
    apply rsum_ext; intros c Hc.
    rewrite HA, (proj2 (Nat.ltb_ge _ _) Et); f_equal; f_equal.
    replace (S t) with (dim2 FU + S (t - dim2 FU)) by lia.
    apply (rsum_cat FU F (fun v => (v * 2 * PI / IZR fs)%R) b c (S (t - dim2 FU))).
Qed.

(** The loop invariant of chunked streaming: the stored phase is the
    unwrapped phase of everything rendered so far, up to whole turns,
    and the signal so far is the oscillator bank on the upsampled
    prefix. *)
Lemma SineSynth_stream_spec (batch n : nat) (rest : list (tensor3 * tensor3)) :
  forall (s : SineSynth) (acc : tensor3) (P : tensor2) (FU AU : tensor3),
  ss_streaming s = true -> ss_resampling_factor s <> 0 -> n <> 0 ->
  ss_phases s = Some P -> rows P = batch -> cols P = n ->
  dim0 FU = batch -> dim1 FU = n ->
  dim0 AU = batch -> dim1 AU = n -> dim2 AU = dim2 FU ->
  (forall b c, b < batch -> c < n -> exists k : Z,
     at2 P b c =
     (rsum (dim2 FU) (fun i => at3 FU b c i * 2 * PI / IZR (ss_fs s))
      + IZR k * (2 * PI))%R) ->
  teq3 acc (oscillator_bank (ss_fs s) FU AU) ->
  Forall (chunk_shape batch n) rest ->
  exists out s',
    SineSynth_stream s acc rest = Some (out, s') /\
    teq3 out
      (oscillator_bank (ss_fs s)
         (cat_list FU (map (fun c => interp_up (ss_resampling_factor s) (fst c)) rest))
         (cat_list AU (map (fun c => interp_up (ss_resampling_factor s) (snd c)) rest))).
Proof.
  induction rest as [|[f a] rest IH];
    intros s acc P FU AU Hs Hr Hn HP Hrows Hcols HF0 HF1 HA0 HA1 HA2 Hinv Hacc Hshape.
  - cbn [SineSynth_stream map cat_list fold_left]; eauto.
  - pose proof (Forall_inv Hshape) as Hfa.
    pose proof (Forall_inv_tail Hshape) as Hrest.
    pose proof Hfa as (Hf0 & Hf1 & Ha0 & Ha1 & Ha2 & HL); cbn [fst snd] in *.
    assert (Hsh : chunk_shape (dim0 f) (dim1 f) (f, a)).
    { unfold chunk_shape; cbn [fst snd]; repeat split;
        first [assumption | congruence]. }
    destruct (SineSynth_call_streaming_step s P f a Hs HP
                ltac:(congruence) ltac:(congruence) Hsh
                ltac:(congruence) Hr) as
      (sig & P' & Hcall & Hd0 & Hd1 & Hd2 & Hrows' & Hcols' & Hsig & HP').
    cbn [SineSynth_stream]; rewrite Hcall; cbn [bind].
    set (r := ss_resampling_factor s) in *.
    assert (Ginv : forall b c, b < batch -> c < n -> exists k : Z,
      at2 P' b c =
      (rsum (dim2 (cat FU (interp_up r f)))
         (fun i => at3 (cat FU (interp_up r f)) b c i * 2 * PI / IZR (ss_fs s))
       + IZR k * (2 * PI))%R).
    {
      intros b c Hb Hc.
      destruct (Hinv b c Hb Hc) as [k Hk].
      rewrite HP' by congruence.
      destruct (fmod_shift
        (fmod (rsum (dim2 f * r)
           (fun i => (at3 (interp_up r f) b c i * 2 * PI / IZR (ss_fs s))%R))
           (2 * PI) + at2 P b c) (2 * PI)) as [k1 ->].
      destruct (fmod_shift
        (rsum (dim2 f * r)
           (fun i => (at3 (interp_up r f) b c i * 2 * PI / IZR (ss_fs s))%R))
        (2 * PI)) as [k2 ->].
      exists (k + k1 + k2)%Z.
      change (dim2 (cat FU (interp_up r f))) with (dim2 FU + dim2 f * r).
      rewrite (rsum_cat FU (interp_up r f)
                 (fun v => (v * 2 * PI / IZR (ss_fs s))%R) b c (dim2 f * r)).
      rewrite Hk, !plus_IZR; ring.
    }
    assert (Gacc : teq3 (cat acc sig)
      (oscillator_bank (ss_fs s) (cat FU (interp_up r f)) (cat AU (interp_up r a)))).
    { destruct Hacc as (Hc0 & Hc1 & Hc2 & Hat).
      cbn [dim0 dim1 dim2 oscillator_bank] in Hc0, Hc1, Hc2, Hat.
      unfold teq3; repeat split;
        try (cbn [dim0 dim1 dim2 cat oscillator_bank interp_up]; congruence).
      intros b c0 t Hb Hc0' Ht.
      cbn [dim0 dim1 dim2 cat] in Hb, Hc0', Ht.
      rewrite (oscillator_bank_cat (ss_fs s) FU (interp_up r f) AU (interp_up r a)
                 b c0 t HA2).
      cbn [at3 cat]; rewrite Hc2.
      destruct (t <? dim2 FU) eqn:Et.
      - apply Nat.ltb_lt in Et; apply Hat; lia.
      - apply Nat.ltb_ge in Et.
        rewrite Hsig by lia.
        rewrite HF1, <- Hf1.
        apply rsum_ext; intros c Hc.
        f_equal.
        destruct (Hinv b c) as [k Hk]; try lia.
        rewrite sin_fmod, Hk.
        match goal with
        | |- sin ?x = sin ?y =>
            replace x with (y + IZR k * (2 * PI))%R by ring; apply sin_period_Z
        end. }
    destruct (IH (ss_set_phases P' s) (cat acc sig) P'
                 (cat FU (interp_up r f)) (cat AU (interp_up r a))
                 Hs Hr Hn eq_refl ltac:(congruence) ltac:(congruence)
                 HF0 HF1 HA0 HA1
                 ltac:(cbn [dim2 cat interp_up]; congruence)
                 Ginv Gacc Hrest)
      as (out & s' & Hrun & Hout).
    exists out, s'; split; [exact Hrun|].
      cbn [map cat_list fold_left fst snd]; exact Hout.
Qed.


(** The first call of a freshly built streaming generator. *)
Lemma SineSynth_call_fresh_spec (fs : Z) (n r batch : nat) (f a : tensor3) :
  n <> 0 -> r <> 0 -> chunk_shape batch n (f, a) ->
  exists sig P',
    SineSynth_call (SineSynth_init fs n r true) f a
      = Some (sig, ss_set_phases P'
                     (ss_set_phases (zeros2 batch n) (SineSynth_init fs n r true))) /\
    rows P' = batch /\ cols P' = n /\
    teq3 sig (oscillator_bank fs (interp_up r f) (interp_up r a)) /\
    (forall b c, b < batch -> c < n -> exists k : Z,
       at2 P' b c =
       (rsum (dim2 f * r) (fun i => at3 (interp_up r f) b c i * 2 * PI / IZR fs)
        + IZR k * (2 * PI))%R).
Proof.
  intros Hn Hr Hsh.
  pose proof Hsh as (Hf0 & Hf1 & Ha0 & Ha1 & Ha2 & HL); cbn [fst snd] in *.
  rewrite SineSynth_call_stale by reflexivity.
  cbn [ss_n_sines SineSynth_init]; rewrite Hf0.
  assert (Hsh' : chunk_shape (dim0 f) (dim1 f) (f, a)) by (rewrite Hf0, Hf1; exact Hsh).
  destruct (SineSynth_call_streaming_step
              (ss_set_phases (zeros2 batch n) (SineSynth_init fs n r true))
              (zeros2 batch n) f a eq_refl eq_refl
              ltac:(cbn; congruence) ltac:(cbn; congruence) Hsh'
              ltac:(congruence) Hr)
    as (sig & P' & Hcall & Hd0 & Hd1 & Hd2 & Hrows & Hcols & Hsig & HP').
  cbn [ss_resampling_factor ss_fs ss_set_phases SineSynth_init] in *.
  exists sig, P'; split; [exact Hcall|].
  split; [congruence|]; split; [congruence|]; split.
  - unfold teq3; cbn [dim0 dim1 dim2 oscillator_bank interp_up].
    repeat split; try assumption.
    intros b c0 t Hb _ Ht.
    rewrite Hsig by lia.
    cbn [at3 oscillator_bank dim1 interp_up].
    apply rsum_ext; intros c Hc.
    cbn [at2 zeros2]; rewrite sin_fmod, Rplus_0_r; reflexivity.
  - intros b c Hb Hc.
    rewrite HP' by congruence.
    cbn [at2 zeros2].
    destruct (fmod_shift
      (fmod (rsum (dim2 f * r)
         (fun i => (at3 (interp_up r f) b c i * 2 * PI / IZR fs)%R))
         (2 * PI) + 0) (2 * PI)) as [k1 ->].
    destruct (fmod_shift
      (rsum (dim2 f * r)
         (fun i => (at3 (interp_up r f) b c i * 2 * PI / IZR fs)%R))
      (2 * PI)) as [k2 ->].
    exists (k1 + k2)%Z; rewrite plus_IZR; ring.
Qed.

Lemma chunks_time_agree (batch n : nat) (rest : list (tensor3 * tensor3)) :
  Forall (chunk_shape batch n) rest ->
  list_sum (map dim2 (map snd rest)) = list_sum (map dim2 (map fst rest)).
Proof.
  induction 1 as [|c rest Hc _ IH]; [reflexivity|].
  destruct Hc as (_ & _ & _ & _ & H2 & _); simpl; rewrite H2, IH; reflexivity.
Qed.

(** The whole trajectory has the shape of a chunk. *)
Lemma whole_shape (batch n : nat) (chunk : tensor3 * tensor3)
    (rest : list (tensor3 * tensor3)) :
  Forall (chunk_shape batch n) (chunk :: rest) ->
  chunk_shape batch n
    (cat_list (fst chunk) (map fst rest), cat_list (snd chunk) (map snd rest)).
Proof.
  intros H.
  pose proof (Forall_inv H) as (Hf0 & Hf1 & Ha0 & Ha1 & Ha2 & HL).
  pose proof (chunks_time_agree batch n rest (Forall_inv_tail H)) as Hsum.
  destruct (cat_list_dims (fst chunk) (map fst rest)) as (F0 & F1 & F2).
  destruct (cat_list_dims (snd chunk) (map snd rest)) as (A0 & A1 & A2).
  unfold chunk_shape; cbn [fst snd].
  rewrite F0, F1, F2, A0, A1, A2; repeat split; try assumption; lia.
Qed.

(** Chunked streaming from a fresh generator renders the oscillator bank
    on the concatenation of the separately upsampled chunks. *)
Lemma SineSynth_chunked_spec (fs : Z) (n r batch : nat)
    (chunk : tensor3 * tensor3) (rest : list (tensor3 * tensor3)) :
  n <> 0 -> r <> 0 ->
  Forall (chunk_shape batch n) (chunk :: rest) ->
  exists out s',
    SineSynth_chunked (SineSynth_init fs n r true) chunk rest = Some (out, s') /\
    teq3 out
      (oscillator_bank fs
         (cat_list (interp_up r (fst chunk)) (map (fun c => interp_up r (fst c)) rest))
         (cat_list (interp_up r (snd chunk)) (map (fun c => interp_up r (snd c)) rest))).
Proof.
  intros Hn Hr Hshape.
  pose proof (Forall_inv Hshape) as H1.
  pose proof (Forall_inv_tail Hshape) as Hrest.
  destruct chunk as [f a]; cbn [fst snd] in *.
  destruct (SineSynth_call_fresh_spec fs n r batch f a Hn Hr H1)
    as (sig1 & P1 & Hcall1 & Hrows1 & Hcols1 & Hsig1 & HP1).
  pose proof H1 as (Hf0 & Hf1 & Ha0 & Ha1 & Ha2 & HL); cbn [fst snd] in *.
  destruct (SineSynth_stream_spec batch n rest
              (ss_set_phases P1 (ss_set_phases (zeros2 batch n)
                                   (SineSynth_init fs n r true)))
              sig1 P1 (interp_up r f) (interp_up r a)
              eq_refl Hr Hn eq_refl Hrows1 Hcols1 Hf0 Hf1 Ha0 Ha1
              ltac:(cbn [dim2 interp_up]; congruence) HP1 Hsig1 Hrest)
    as (outC & sC & HrunC & HoutC).
  cbn [ss_fs ss_resampling_factor ss_set_phases SineSynth_init] in HoutC.
  exists outC, sC; split; [|exact HoutC].
  unfold SineSynth_chunked; cbn [fst snd]; rewrite Hcall1; exact HrunC.
Qed.

(** C3 (amended).  A freshly built streaming SineSynth renders a
    trajectory given as consecutive chunks of shape (batch, n_sines, len)
    to the same signal as one streaming call on the whole trajectory,
    which is also the signal of the non-streaming call, provided that
    upsampling the whole frequency and amplitude trajectories agrees with
    the concatenation of the separately upsampled chunks.  The equalities
    are those of exact real arithmetic. *)
Theorem sine_phase_continuity (fs : Z) (n r batch : nat)
    (chunk : tensor3 * tensor3) (rest : list (tensor3 * tensor3)) :
  n <> 0 -> r <> 0 ->
  Forall (chunk_shape batch n) (chunk :: rest) ->
  teq3 (interp_up r (cat_list (fst chunk) (map fst rest)))
       (cat_list (interp_up r (fst chunk))
          (map (fun c => interp_up r (fst c)) rest)) ->
  teq3 (interp_up r (cat_list (snd chunk) (map snd rest)))
       (cat_list (interp_up r (snd chunk))
          (map (fun c => interp_up r (snd c)) rest)) ->
  exists out_chunked s_chunked out_stream s_stream out_offline,
    SineSynth_chunked (SineSynth_init fs n r true) chunk rest
      = Some (out_chunked, s_chunked) /\
    SineSynth_call (SineSynth_init fs n r true)
      (cat_list (fst chunk) (map fst rest)) (cat_list (snd chunk) (map snd rest))
      = Some (out_stream, s_stream) /\
    SineSynth_call (SineSynth_init fs n r false)
      (cat_list (fst chunk) (map fst rest)) (cat_list (snd chunk) (map snd rest))
      = Some (out_offline, SineSynth_init fs n r false) /\
    teq3 out_stream out_chunked /\ teq3 out_stream out_offline.
Proof.
  intros Hn Hr Hshape HF HA.
  pose proof (whole_shape batch n chunk rest Hshape) as HW.
  destruct (SineSynth_chunked_spec fs n r batch chunk rest Hn Hr Hshape)
    as (outC & sC & HrunC & HoutC).
  set (Wf := cat_list (fst chunk) (map fst rest)) in *.
  set (Wa := cat_list (snd chunk) (map snd rest)) in *.
  (* the single streaming call *)
  destruct (SineSynth_call_fresh_spec fs n r batch Wf Wa Hn Hr HW)
    as (sigW & PW & HcallW & _ & _ & HsigW & _).
  (* the offline call *)
  pose proof HW as (HW0 & HW1 & HWa0 & HWa1 & HWa2 & HWL); cbn [fst snd] in *.
  assert (HW' : chunk_shape (dim0 Wf) (dim1 Wf) (Wf, Wa))
    by (rewrite HW0, HW1; exact HW).
  destruct (SineSynth_call_offline_spec (SineSynth_init fs n r false) Wf Wa
              eq_refl HW' ltac:(congruence) Hr)
    as (sigO & HcallO & HsigO).
  cbn [ss_fs ss_resampling_factor SineSynth_init] in HsigO.
  exists outC, sC, sigW; eexists; exists sigO.
  split; [exact HrunC|].
  split; [exact HcallW|]; split; [exact HcallO|]; split.
  - apply (teq3_trans _ _ _ HsigW).
    apply teq3_sym in HoutC; refine (teq3_trans _ _ _ _ HoutC).
    apply oscillator_bank_teq; try assumption;
      cbn [dim0 dim1 dim2 interp_up]; congruence.
  - apply (teq3_trans _ _ _ HsigW), teq3_sym, HsigO.
Qed.

End SineChunks.

Section SineExamples.

(** Two tensors of one shape that hold one value everywhere are equal. *)
Lemma teq3_constant (v : R) (x y : tensor3) :
  dim0 x = dim0 y -> dim1 x = dim1 y -> dim2 x = dim2 y ->
  (forall b c i, at3 x b c i = v) -> (forall b c i, at3 y b c i = v) ->
  teq3 x y.
Proof.
  intros H0 H1 H2 Hx Hy; unfold teq3; repeat split; try assumption.
  intros b c t _ _ _; rewrite Hx, Hy; reflexivity.
Qed.

Lemma cat_constant (v : R) (x y : tensor3) :
  (forall b c i, at3 x b c i = v) -> (forall b c i, at3 y b c i = v) ->
  forall b c i, at3 (cat x y) b c i = v.
Proof.
  intros Hx Hy b c i; cbn [at3 cat]; destruct (_ <? _); auto.
Qed.

Lemma interp_constant (r : nat) (v : R) (x : tensor3) :
  (forall b c i, at3 x b c i = v) ->
  forall b c i, at3 (interp_up r x) b c i = v.
Proof.
  intros Hx b c i; apply interp_up_constant; intros; apply Hx.
Qed.

Lemma full_constant (d0 d1 d2 : nat) (v : R) :
  forall b c i, at3 (full d0 d1 d2 v) b c i = v.
Proof. reflexivity. Qed.

(** C3, witness: one oscillator at constant frequency 1 and amplitude 3,
    four control steps rendered as chunks of 1, 2 and 1 steps. *)
Lemma sine_phase_continuity_witness :
  exists out_chunked s_chunked out_stream s_stream out_offline,
    SineSynth_chunked (ss_1 true) (const_chunk 1 1 3)
      [const_chunk 2 1 3; const_chunk 1 1 3]
      = Some (out_chunked, s_chunked) /\
    SineSynth_call (ss_1 true) 
      (cat (cat (full 1 1 1 1) (full 1 1 2 1)) (full 1 1 1 1))
      (cat (cat (full 1 1 1 3) (full 1 1 2 3)) (full 1 1 1 3))
      = Some (out_stream, s_stream) /\
    SineSynth_call (ss_1 false) 
      (cat (cat (full 1 1 1 1) (full 1 1 2 1)) (full 1 1 1 1))
      (cat (cat (full 1 1 1 3) (full 1 1 2 3)) (full 1 1 1 3))
      = Some (out_offline, ss_1 false) /\
    teq3 out_stream out_chunked /\ teq3 out_stream out_offline.
Proof.
  apply (sine_phase_continuity 8 1 2 1 (const_chunk 1 1 3)
           [const_chunk 2 1 3; const_chunk 1 1 3]).
  - discriminate.
  - discriminate.
  - repeat constructor; cbn; discriminate.
  - apply (teq3_constant 1); try reflexivity;
      repeat first [apply interp_constant | apply cat_constant | apply full_constant].
  - apply (teq3_constant 3); try reflexivity;
      repeat first [apply interp_constant | apply cat_constant | apply full_constant].
Defined.


(** C3, counterexample: one oscillator, sample rate 8, factor 2, constant
    frequency 1, the amplitude trajectory (0, 4) split into 1 + 1.  At
    output step 1 the phase is pi/2; the whole trajectory is upsampled to
    amplitude 1 there, the first chunk alone to amplitude 0. *)
Lemma sine_phase_continuity_fails :
  exists out_chunked s_chunked out_stream s_stream out_offline,
    SineSynth_chunked (ss_1 true) (const_chunk 1 1 0) [const_chunk 1 1 4]
      = Some (out_chunked, s_chunked) /\
    SineSynth_call (ss_1 true)
      (cat (full 1 1 1 1) (full 1 1 1 1)) (cat (full 1 1 1 0) (full 1 1 1 4))
      = Some (out_stream, s_stream) /\
    SineSynth_call (ss_1 false)
      (cat (full 1 1 1 1) (full 1 1 1 1)) (cat (full 1 1 1 0) (full 1 1 1 4))
      = Some (out_offline, ss_1 false) /\
    at3 out_chunked 0 0 1 = 0%R /\
    at3 out_stream 0 0 1 = 1%R /\
    at3 out_offline 0 0 1 = 1%R.
Proof.
  assert (Hshape : Forall (chunk_shape 1 1) [const_chunk 1 1 0; const_chunk 1 1 4])
    by (repeat constructor; cbn; discriminate).
  destruct (SineSynth_chunked_spec 8 1 2 1 (const_chunk 1 1 0) [const_chunk 1 1 4]
              ltac:(discriminate) ltac:(discriminate) Hshape)
    as (outC & sC & HC & (C0 & C1 & C2 & HatC)).
  pose proof (whole_shape 1 1 _ _ Hshape) as HW.
  destruct (SineSynth_call_fresh_spec 8 1 2 1 _ _
              ltac:(discriminate) ltac:(discriminate) HW)
    as (outW & PW & HcW & _ & _ & (W0 & W1 & W2 & HatW) & _).
  destruct (SineSynth_call_offline_spec (ss_1 false) _ _ eq_refl HW
              ltac:(discriminate) ltac:(discriminate))
    as (outO & HcO & (O0 & O1 & O2 & HatO)).
  exists outC, sC, outW; eexists; exists outO.
  split; [exact HC|]; split; [exact HcW|]; split; [exact HcO|].
  assert (Hsin : sin (0 + 1 * 2 * PI / 8 + 1 * 2 * PI / 8) = 1%R).
  { replace (0 + 1 * 2 * PI / 8 + 1 * 2 * PI / 8)%R with (PI / 2)%R by lra.
    apply sin_PI2. }
  assert (Hwhole : at3 (oscillator_bank 8
            (interp_up 2 (cat (full 1 1 1 1) (full 1 1 1 1)))
            (interp_up 2 (cat (full 1 1 1 0) (full 1 1 1 4)))) 0 0 1 = 1%R).
  { unfold oscillator_bank; cbn [at3].
    change (dim1 (interp_up 2 (cat (full 1 1 1 1) (full 1 1 1 1)))) with 1.
    cbn [rsum].
    rewrite !(interp_up_constant 2 (cat (full 1 1 1 1) (full 1 1 1 1)) 0 0 _ 1)
      by (intros i; apply cat_constant; apply full_constant).
    rewrite Hsin.
    cbn; unfold interp_lambda1, src2; simpl; lra. }
  split; [|split].
  - rewrite HatC by (rewrite ?C0, ?C1, ?C2; cbn; lia).
    cbn; unfold interp_lambda1, src2; simpl; lra.
  - rewrite HatW by (rewrite ?W0, ?W1, ?W2; cbn; lia).
    exact Hwhole.
  - rewrite HatO by (rewrite ?O0, ?O1, ?O2; cbn; lia).
    exact Hwhole.
Qed.

End SineExamples.

Section Stateless.

Lemma SineSynth_call_offline_state (fs : Z) (n r : nat) (p : option tensor2)
    (f a : tensor3) :
  SineSynth_call (mkSineSynth fs n r p false) f a
  = option_map (fun out => (fst out, mkSineSynth fs n r p false))
      (SineSynth_call (SineSynth_init fs n r false) f a).
Proof.
  rewrite !SineSynth_call_offline by reflexivity.
  cbn [ss_resampling_factor ss_fs SineSynth_init].
  destruct (interpolate f r); [|reflexivity]; cbn [bind].
  destruct (interpolate a r); [|reflexivity]; cbn [bind].
  destruct (mul _ _); reflexivity.
Qed.

(** C10.  A SineSynth built with [streaming=False] neither reads nor
    writes its state: whatever the phases field holds, a call returns the
    state unchanged and the signal a fresh generator returns; after any
    history of calls the state is still the constructor's, whose phases
    buffer is [None], and every output is the one a fresh generator
    gives for the same frequencies and amplitudes. *)
Theorem offline_SineSynth_stateless (fs : Z) (n r : nat) :
  (forall (p : option tensor2) (f a : tensor3),
     SineSynth_call (mkSineSynth fs n r p false) f a
     = option_map (fun out => (fst out, mkSineSynth fs n r p false))
         (SineSynth_call (SineSynth_init fs n r false) f a)) /\
  (forall history : list (tensor3 * tensor3),
     SineSynth_calls (SineSynth_init fs n r false) history
     = option_map (fun outs => (outs, SineSynth_init fs n r false))
         (try_map (fun fa =>
            option_map fst
              (SineSynth_call (SineSynth_init fs n r false) (fst fa) (snd fa)))
            history)) /\
  ss_phases (SineSynth_init fs n r false) = None.
Proof.
  split; [apply SineSynth_call_offline_state|]; split; [|reflexivity].
  induction history as [|[f a] rest IH]; [reflexivity|].
  cbn [SineSynth_calls try_map fst snd].
  pose proof (SineSynth_call_offline_state fs n r None f a) as H.
  change (mkSineSynth fs n r None false) with (SineSynth_init fs n r false) in H.
  destruct (SineSynth_call (SineSynth_init fs n r false) f a) as [[out s']|] eqn:E;
    [|reflexivity].
  cbn [option_map fst] in H; injection H as ->.
  cbn [bind option_map fst]; rewrite IH.
  destruct (try_map _ rest); reflexivity.
Qed.

End Stateless.

(** ** HarmonicSynth *)

Section HarmonicFacts.

(** On a fundamental of shape (batch, 1, len) the derived frequencies
    are [fundamental * (h + 1)], of shape (batch, n_harmonics, len). *)
Lemma harmonic_frequencies_rank3 (self : HarmonicSynth) (f : tensor3) :
  dim1 f = 1 ->
  exists fr,
    harmonic_frequencies self (Rank3 f) = Some fr /\
    dim0 fr = dim0 f /\ dim1 fr = hs_n_harmonics self /\ dim2 fr = dim2 f /\
    forall b h t, b < dim0 f -> h < hs_n_harmonics self -> t < dim2 f ->
      at3 fr b h t = (at3 f b 0 t * IZR (Z.of_nat (h + 1)))%R.
Proof.
  intros H1; unfold harmonic_frequencies, harmonic_numbers.
  unfold mul, bcast; cbn [dim0 dim1 dim2].
  rewrite H1, !bdim_one_r, bdim_one_l; cbn [bind].
  eexists; split; [reflexivity|].
  cbn [dim0 dim1 dim2 at3]; repeat split.
  intros b h t Hb Hh Ht.
  rewrite (bidx_lt _ _ Hb), (bidx_lt _ _ Ht), (bidx_lt _ _ Hh).
  reflexivity.
Qed.

(** C6.  On the fundamental 100 | 200 of two batch elements and two
    harmonics, the slot of shape (2, 1, 1) gives the frequencies
    fundamental * (h + 1) per batch element; the documented 2-D shape
    (2, 1) gives one batch element whose harmonic h is taken from batch
    row h: (100 * 1, 200 * 2) instead of (100, 200) and (200, 400); the
    render call then succeeds on these frequencies. *)
Theorem harmonic_derivation_mixes_batch :
  (exists fr,
     harmonic_frequencies hs_2 (Rank3 fundamental_3d) = Some fr /\
     dim0 fr = 2 /\ dim1 fr = 2 /\ dim2 fr = 1 /\
     at3 fr 0 0 0 = 100%R /\ at3 fr 0 1 0 = 200%R /\
     at3 fr 1 0 0 = 200%R /\ at3 fr 1 1 0 = 400%R) /\
  (exists fr,
     harmonic_frequencies hs_2 (Rank2 fundamental_2d) = Some fr /\
     dim0 fr = 1 /\ dim1 fr = 2 /\ dim2 fr = 1 /\
     at3 fr 0 0 0 = 100%R /\ at3 fr 0 1 0 = 400%R) /\
  (exists signal s',
     HarmonicSynth_call hs_2 (Rank2 fundamental_2d) (full 2 2 1 1)
       = Some (signal, s') /\
     dim0 signal = 2 /\ dim1 signal = 1 /\ dim2 signal = 2).
Proof.
  split; [|split].
  - eexists; split; [reflexivity|].
    repeat split; cbn; lra.
  - eexists; split; [reflexivity|].
    repeat split; cbn; lra.
  - eexists; eexists; split; [reflexivity|].
    repeat split.
Qed.

End HarmonicFacts.

(** ** Shape mismatches *)

Section ShapeFacts.

Lemma bcast_None (f : R -> R -> R) (x y : tensor3) :
  bdim (dim0 x) (dim0 y) = None \/ bdim (dim1 x) (dim1 y) = None \/
  bdim (dim2 x) (dim2 y) = None ->
  bcast f x y = None.
Proof.
  unfold bcast; intros [H | [H | H]].
  - rewrite H; reflexivity.
  - destruct (bdim (dim0 x) (dim0 y)); [|reflexivity]; cbn [bind].
    rewrite H; reflexivity.
  - destruct (bdim (dim0 x) (dim0 y)); [|reflexivity]; cbn [bind].
    destruct (bdim (dim1 x) (dim1 y)); [|reflexivity]; cbn [bind].
    rewrite H; reflexivity.
Qed.

Lemma bdim_None_inv (a b : nat) : bdim a b = None -> a <> b /\ a <> 1 /\ b <> 1.
Proof.
  unfold bdim.
  destruct (a =? b) eqn:E1; [discriminate|].
  destruct (a =? 1) eqn:E2; [discriminate|].
  destruct (b =? 1) eqn:E3; [discriminate|].
  apply Nat.eqb_neq in E1, E2, E3; auto.
Qed.

(** Slots that cannot be broadcast against each other, streaming mode. *)
Lemma SineSynth_streaming_mismatch (s : SineSynth) (P : tensor2) (f a : tensor3) :
  ss_streaming s = true -> ss_phases s = Some P -> rows P = dim0 f ->
  bdim (dim0 a) (dim0 f) = None \/ bdim (dim1 a) (dim1 f) = None \/
  bdim (dim2 a * ss_resampling_factor s) (dim2 f * ss_resampling_factor s) = None ->
  SineSynth_call s f a = None.
Proof.
  intros Hs HP Hrows H.
  rewrite (SineSynth_call_streaming s P f a Hs HP Hrows).
  set (r := ss_resampling_factor s) in *.
  destruct (interpolate f r) as [F|] eqn:EF; [|reflexivity]; cbn [bind].
  destruct (interpolate a r) as [A|] eqn:EA; [|reflexivity]; cbn [bind].
  apply interpolate_Some in EF as (_ & _ & _ & ->).
  apply interpolate_Some in EA as (_ & _ & _ & ->).
  destruct (add _ _) as [sh|] eqn:Eadd; [|reflexivity]; cbn [bind].
  destruct (select_last _); [|reflexivity]; cbn [bind].
  destruct (copy_ _ _); [|reflexivity]; cbn [bind].
  apply bcast_Some in Eadd as (E0 & E1 & E2 & _).
  cbn [dim0 dim1 dim2 permute_201 remainder3 map3 cumsum div_scalar mul_scalar
       interp_up unsqueeze0] in E0, E1, E2.
  unfold mul; rewrite bcast_None; [reflexivity|].
  cbn [dim0 dim1 dim2 sin3 map3 permute_120 interp_up].
  rewrite bdim_one_r in E0; injection E0 as E0.
  rewrite Hrows, bdim_same in E1; injection E1 as E1.
  rewrite <- E0, <- E1.
  destruct H as [H | [H | H]]; auto.
  right; left.
  apply bdim_None_inv in H as (Hab & Ha & Hf).
  apply bdim_Some in E2 as [(_ & E2) | [(E2 & _) | (_ & E2)]];
    try (rewrite E2; apply bdim_None; assumption).
  contradiction.
Qed.

Lemma SineSynth_call_mismatch (s : SineSynth) (f a : tensor3) :
  bdim (dim0 a) (dim0 f) = None \/ bdim (dim1 a) (dim1 f) = None \/
  bdim (dim2 a * ss_resampling_factor s) (dim2 f * ss_resampling_factor s) = None ->
  SineSynth_call s f a = None.
Proof.
  intros H.
  destruct (ss_streaming s) eqn:Hs.
  - destruct (phases_stale s (dim0 f)) eqn:Hp.
    + rewrite (SineSynth_call_stale s f a Hs Hp).
      apply (SineSynth_streaming_mismatch _ (zeros2 (dim0 f) (ss_n_sines s)));
        auto.
    + unfold phases_stale in Hp.
      destruct (ss_phases s) as [P|] eqn:HP; [|discriminate].
      apply negb_false_iff, Nat.eqb_eq in Hp.
      apply (SineSynth_streaming_mismatch s P); auto.
  - rewrite (SineSynth_call_offline s f a Hs).
    set (r := ss_resampling_factor s) in *.
    destruct (interpolate f r) as [F|] eqn:EF; [|reflexivity]; cbn [bind].
    destruct (interpolate a r) as [A|] eqn:EA; [|reflexivity]; cbn [bind].
    apply interpolate_Some in EF as (_ & _ & _ & ->).
    apply interpolate_Some in EA as (_ & _ & _ & ->).
    unfold mul; rewrite bcast_None; [reflexivity|].
    cbn [dim0 dim1 dim2 sin3 remainder3 map3 cumsum div_scalar mul_scalar interp_up].
    exact H.
Qed.

(** A fresh streaming generator rejects a frequency channel count that
    is neither [n_sines] nor 1. *)
Lemma SineSynth_fresh_channels (fs : Z) (n r : nat) (f a : tensor3) :
  dim1 f <> n -> dim1 f <> 1 ->
  SineSynth_call (SineSynth_init fs n r true) f a = None.
Proof.
  intros Hn H1.
  rewrite SineSynth_call_stale by reflexivity.
  change (ss_n_sines (SineSynth_init fs n r true)) with n.
  rewrite (SineSynth_call_streaming
             (ss_set_phases (zeros2 (dim0 f) n) (SineSynth_init fs n r true))
             (zeros2 (dim0 f) n) f a eq_refl eq_refl eq_refl).
  cbn [ss_resampling_factor ss_fs ss_set_phases SineSynth_init ss_n_sines].
  destruct (interpolate f r) as [F|] eqn:EF; [|reflexivity]; cbn [bind].
  destruct (interpolate a r) as [A|] eqn:EA; [|reflexivity]; cbn [bind].
  apply interpolate_Some in EF as (_ & _ & _ & ->).
  destruct (add _ _) as [sh|] eqn:Eadd; [|reflexivity]; cbn [bind].
  apply bcast_Some in Eadd as (E0 & E1 & E2 & _).
  cbn [dim0 dim1 dim2 permute_201 remainder3 map3 cumsum div_scalar mul_scalar
       interp_up unsqueeze0 zeros2 rows cols] in E0, E1, E2.
  apply bdim_Some in E2 as [(E2 & _) | [(E2 & _) | (E2 & Ed)]]; try contradiction.
  unfold select_last.
  destruct (dim2 (permute_120 sh) =? 0); [reflexivity|]; cbn [bind].
  unfold copy_.
  cbn [rows cols remainder2 map2 zeros2 permute_120 dim0 dim1 dim2].
  rewrite Ed.
  apply Nat.eqb_neq in Hn, H1; rewrite Hn, H1.
  rewrite andb_false_r; reflexivity.
Qed.

(** C5 (amended).  No generator validates the shape of a slot; a call
    fails, with the error of the tensor operation that cannot broadcast,
    when the amplitude channels differ from the number of noise bands
    and neither is 1; when the frequencies and amplitudes of a SineSynth
    disagree on batch size, channel count or upsampled length and
    neither size is 1; when a fresh streaming SineSynth gets a frequency
    channel count that is neither [n_sines] nor 1; and when the
    amplitudes of a HarmonicSynth with a width-1 fundamental differ from
    [n_harmonics] and neither is 1. *)
Theorem render_shape_rejection :
  (forall (s : NoiseBandSynth) (e : nat) (a : tensor3),
     dim1 a <> rows (nb_noisebands s) -> dim1 a <> 1 ->
     rows (nb_noisebands s) <> 1 ->
     NoiseBandSynth_call s e a = None) /\
  (forall (s : SineSynth) (f a : tensor3),
     bdim (dim0 a) (dim0 f) = None \/ bdim (dim1 a) (dim1 f) = None \/
     bdim (dim2 a * ss_resampling_factor s) (dim2 f * ss_resampling_factor s)
       = None ->
     SineSynth_call s f a = None) /\
  (forall (fs : Z) (n r : nat) (f a : tensor3),
     dim1 f <> n -> dim1 f <> 1 ->
     SineSynth_call (SineSynth_init fs n r true) f a = None) /\
  (forall (s : HarmonicSynth) (fundamental a : tensor3),
     dim1 fundamental = 1 ->
     dim1 a <> hs_n_harmonics s -> dim1 a <> 1 -> hs_n_harmonics s <> 1 ->
     HarmonicSynth_call s (Rank3 fundamental) a = None).
Proof.
  split; [|split; [|split]].
  - intros s e a H1 H2 H3.
    destruct (NoiseBandSynth_call s e a) as [r|] eqn:E; [|reflexivity].
    assert (Hok : exists r, NoiseBandSynth_call s e a = Some r) by eauto.
    apply NoiseBandSynth_call_ok in Hok as (_ & _ & _ & _ & Hb).
    rewrite bdim_None in Hb by assumption; contradiction.
  - exact SineSynth_call_mismatch.
  - exact SineSynth_fresh_channels.
  - intros s fundamental a Hf H1 H2 H3.
    unfold HarmonicSynth_call.
    destruct (harmonic_frequencies_rank3 s fundamental Hf)
      as (fr & -> & _ & Hd1 & _); cbn [bind].
    rewrite SineSynth_call_mismatch; [reflexivity|].
    right; left; rewrite Hd1; apply bdim_None; assumption.
Qed.

(** C5, witness: 3 channels against 4 bands; 3 amplitude channels
    against 2 frequency channels; 2 channels against [n_sines] = 1 in
    streaming mode; 3 amplitude channels against 2 harmonics. *)
Lemma render_shape_rejection_witness :
  NoiseBandSynth_call nb_4x16 0 (full 1 3 2 1) = None /\
  SineSynth_call (ss_1 false) (full 1 2 1 1) (full 1 3 1 1) = None /\
  SineSynth_call (ss_1 true) (full 1 2 1 1) (full 1 2 1 1) = None /\
  HarmonicSynth_call hs_2 (Rank3 fundamental_3d) (full 2 3 1 1) = None.
Proof.
  destruct render_shape_rejection as (Hnb & Hss & Hfresh & Hhs).
  split; [|split; [|split]].
  - apply Hnb; cbn; lia.
  - apply Hss; right; left; reflexivity.
  - apply Hfresh; cbn; lia.
  - apply Hhs; cbn; lia.
Defined.

(** C5, counterexample: a one-channel amplitude is broadcast over two
    noise bands (the signal is the sum of both bands), and an offline
    SineSynth with [n_sines] = 1 renders two channels; neither call
    fails. *)
Lemma render_accepts_mismatched_channels :
  rows (nb_noisebands nb_2x2) = 2 /\ nb_n_filters nb_2x2 = 2 /\
  dim1 (full 1 1 1 1) = 1 /\
  (exists sig s',
     NoiseBandSynth_call nb_2x2 0 (full 1 1 1 1) = Some (sig, s') /\
     at3 sig 0 0 0 = 3%R) /\
  ss_n_sines (ss_1 false) = 1 /\ dim1 (full 1 2 1 1) = 2 /\
  (exists sig,
     SineSynth_call (ss_1 false) (full 1 2 1 1) (full 1 2 1 1)
       = Some (sig, ss_1 false)).
Proof.
  repeat (split; [reflexivity|]).
  split; [|repeat (split; [reflexivity|])].
  - eexists; eexists; split; [reflexivity|].
    cbn; unfold interp_lambda1, src2; simpl; lra.
  - eexists; reflexivity.
Qed.

End ShapeFacts.

(* ================================================================== *)
(** * Part III: further properties of the code *)
(* ================================================================== *)

(** ** Tensor primitives, continued *)

Section MoreTorchFacts.

(** The two source positions of an output step lie inside the input. *)
Lemma interp_index_bound (len r t : nat) :
  r <> 0 -> t < len * r ->
  interp_i0 r t < len /\ interp_i1 len r t < len.
Proof.
  intros Hr Ht; unfold interp_i1, interp_i0, src2.
  assert (H0 : (2 * t + 1 - r) / (2 * r) < len).
  { apply Nat.Div0.div_lt_upper_bound; nia. }
  split; [exact H0|].
  destruct (_ <? _) eqn:E; [apply Nat.ltb_lt in E; lia | lia].
Qed.

(** Interpolation reads entries inside the shape only. *)
Lemma interp_up_teq (r : nat) (x y : tensor3) :
  r <> 0 -> teq3 x y -> teq3 (interp_up r x) (interp_up r y).
Proof.
  intros Hr (H0 & H1 & H2 & H).
  unfold teq3; cbn [dim0 dim1 dim2 interp_up]; repeat split; try congruence.
  intros b c t Hb Hc Ht; cbn [at3 interp_up].
  destruct (interp_index_bound (dim2 x) r t Hr Ht) as (B0 & B1).
  rewrite <- H2, !H by assumption; reflexivity.
Qed.

(** Interpolation is linear in its input. *)
Lemma interp_up_linear (r : nat) (x1 x2 x : tensor3) (alpha beta : R) (b c t : nat) :
  r <> 0 ->
  dim2 x1 = dim2 x -> dim2 x2 = dim2 x ->
  t < dim2 x * r ->
  (forall i, i < dim2 x ->
     at3 x b c i = (alpha * at3 x1 b c i + beta * at3 x2 b c i)%R) ->
  at3 (interp_up r x) b c t
  = (alpha * at3 (interp_up r x1) b c t + beta * at3 (interp_up r x2) b c t)%R.
Proof.
  intros Hr H1 H2 Ht H; cbn [at3 interp_up].
  destruct (interp_index_bound (dim2 x) r t Hr Ht) as (B0 & B1).
  rewrite H1, H2, !H by assumption; ring.
Qed.

Lemma rsum_linear (n : nat) (f g : nat -> R) (alpha beta : R) :
  rsum n (fun i => (alpha * f i + beta * g i)%R)
  = (alpha * rsum n f + beta * rsum n g)%R.
Proof.
  induction n as [|n IH]; cbn [rsum]; [ring | rewrite IH; ring].
Qed.

Lemma rsum_zero (n : nat) (f : nat -> R) :
  (forall i, i < n -> f i = 0%R) -> rsum n f = 0%R.
Proof.
  induction n as [|n IH]; cbn [rsum]; intros H; [reflexivity|].
  rewrite IH, (H n) by (intros; auto with arith); ring.
Qed.

Lemma fmod_range (x d : R) : (0 < d)%R -> (0 <= fmod x d < d)%R.
Proof.
  intros Hd; unfold fmod.
  pose proof (Zfloor_bound (x / d)) as (Hlo & Hhi).
  assert (E : x = (x / d * d)%R) by (field; lra).
  split.
  - apply (Rmult_le_compat_r d) in Hlo; lra.
  - apply (Rmult_lt_compat_r d) in Hhi; lra.
Qed.

End MoreTorchFacts.

Section MoreNoiseBandFacts.

(** Rolling left by [s] and then right by [d < n] reads position
    [(i + s + (n - d)) mod n]. *)
Lemma roll_left_right_index (i s d n : nat) :
  d < n ->
  (Z.to_nat ((Z.of_nat (Z.to_nat ((Z.of_nat (i mod n) - Z.of_nat d) mod Z.of_nat n))
              - - Z.of_nat s) mod Z.of_nat n))
  = (i + s + (n - d)) mod n.
Proof.
  intros Hd.
  assert (Hn : n <> 0) by lia.
  assert (E : ((Z.of_nat (i mod n) - Z.of_nat d) mod Z.of_nat n)%Z
              = Z.of_nat ((i mod n + (n - d)) mod n)).
  { rewrite (Nat2Z.inj_mod (i mod n + (n - d)) n).
    rewrite (Nat2Z.inj_add (i mod n) (n - d)), (Nat2Z.inj_sub n d) by lia.
    replace (Z.of_nat (i mod n) + (Z.of_nat n - Z.of_nat d))%Z
      with (Z.of_nat (i mod n) - Z.of_nat d + 1 * Z.of_nat n)%Z by lia.
    rewrite Z_mod_plus_full; reflexivity. }
  rewrite E, Nat2Z.id, roll_left_index.
  rewrite Nat.Div0.add_mod_idemp_l.
  replace (i mod n + (n - d) + s) with (i mod n + (s + (n - d))) by lia.
  rewrite Nat.Div0.add_mod_idemp_l; f_equal; lia.
Qed.

(** The signal of a successful call, in either mode: every output
    sample is the sum over the bands of the upsampled amplitude times a
    window of the bands that depends on the state and the draw only. *)
Lemma NoiseBandSynth_call_window (s : NoiseBandSynth) (e : nat) :
  exists W : nat -> nat -> R,
    (forall k t, W k t =
       at2 (nb_noisebands s) k
         ((t + nb_noisebands_shift s
           + (if nb_training s
              then cols (nb_noisebands s) - e mod cols (nb_noisebands s)
              else 0)) mod cols (nb_noisebands s))) /\
    forall (a sig : tensor3) (s' : NoiseBandSynth),
      NoiseBandSynth_call s e a = Some (sig, s') ->
      exists C',
        bdim (dim1 a) (rows (nb_noisebands s)) = Some C' /\
        forall b c0 t, b < dim0 a -> t < dim2 a * nb_resampling_factor s ->
          at3 sig b c0 t =
          rsum C' (fun c =>
            (at3 (interp_up (nb_resampling_factor s) a) b (bidx (dim1 a) c) t
             * W (bidx (rows (nb_noisebands s)) c) t)%R).
Proof.
  eexists; split; [intros k t; reflexivity|].
  intros a sig s' H.
  unfold NoiseBandSynth_call in H.
  apply bind_Some in H as (up & Hup & H).
  apply bind_Some in H as (nbs & Hnbs & H).
  apply bind_Some in H as (reps & Hreps & H).
  apply bind_Some in H as (sh & Hsh & H).
  apply bind_Some in H as (prod & Hprod & H).
  apply interpolate_Some in Hup as (H1 & H2 & Hr & ->).
  pose proof Hnbs as Hshape; apply rotated_shape in Hshape as (Hrows & Hcols).
  apply ceil_div_Some in Hreps as (HM & Hq).
  cbn [dim2 interp_up] in Hq.
  apply bcast_Some in Hprod as (Hd0 & Hd1 & Hd2 & Hat).
  cbn [dim0 dim1 dim2 interp_up unsqueeze0 trim_cols repeat_cols rows cols]
    in Hd0, Hd1, Hd2.
  rewrite Nat.min_l in Hd2 by exact Hq.
  rewrite bdim_one_r in Hd0; rewrite bdim_same in Hd2.
  injection Hd0 as Hd0; injection Hd2 as Hd2.
  injection H as <- _.
  rewrite Hrows in Hd1.
  exists (dim1 prod); split; [exact Hd1|].
  intros b c0 t Hb Hlt.
  cbn [at3 sum_dim1].
  apply rsum_ext; intros c Hc.
  rewrite Hat.
  cbn [at3 at2 dim0 dim1 dim2 interp_up unsqueeze0 trim_cols repeat_cols rows cols].
  rewrite Nat.min_l by exact Hq.
  rewrite (bidx_lt _ _ Hb), !(bidx_lt _ _ Hlt).
  rewrite Hrows, Hcols in *.
  f_equal.
  destruct (nb_training s).
  - apply bind_Some in Hnbs as (d & Hd & Hnbs).
    injection Hnbs as <-.
    unfold randint in Hd.
    cbn [cols roll] in Hd.
    destruct (0 <? cols (nb_noisebands s)) eqn:E0; [|discriminate].
    injection Hd as <-.
    cbn [at2 roll cols].
    rewrite Nat.sub_0_r.
    rewrite roll_left_right_index
      by (apply Nat.mod_upper_bound; exact HM).
    reflexivity.
  - injection Hnbs as <-.
    cbn [at2 roll cols].
    rewrite roll_left_index, Nat.Div0.add_mod_idemp_l, Nat.add_0_r.
    reflexivity.
Qed.

End MoreNoiseBandFacts.

Section NoiseBandExtras.

(** X1.  A render call of a NoiseBandSynth succeeds, in either mode and
    for any draw, exactly when the amplitudes have a non-empty channel
    and time axis, the resampling factor and the band length are not 0,
    and the amplitude channel count equals the number of bands or one of
    the two is 1. *)
Theorem NoiseBandSynth_succeeds_iff (s : NoiseBandSynth) (e : nat) (a : tensor3) :
  (exists r, NoiseBandSynth_call s e a = Some r) <->
  dim1 a <> 0 /\ dim2 a <> 0 /\ nb_resampling_factor s <> 0 /\
  cols (nb_noisebands s) <> 0 /\
  (dim1 a = rows (nb_noisebands s) \/ dim1 a = 1 \/ rows (nb_noisebands s) = 1).
Proof.
  rewrite NoiseBandSynth_call_ok.
  assert (E : bdim (dim1 a) (rows (nb_noisebands s)) <> None <->
              (dim1 a = rows (nb_noisebands s) \/ dim1 a = 1
               \/ rows (nb_noisebands s) = 1)).
  { split.
    - intros H.
      destruct (bdim (dim1 a) (rows (nb_noisebands s))) as [d|] eqn:Ed;
        [|contradiction].
      apply bdim_Some in Ed; tauto.
    - intros [H | [H | H]]; rewrite H;
        rewrite ?bdim_same, ?bdim_one_l, ?bdim_one_r; discriminate. }
  tauto.
Qed.

(** X2.  A successful render call returns a signal of shape
    (batch, 1, control_len * resampling_factor), one channel kept, and
    changes nothing of the generator but the stored offset: filter bank,
    mode, resampling factor and filter count are the same. *)
Theorem NoiseBandSynth_call_frame (s : NoiseBandSynth) (e : nat)
    (a sig : tensor3) (s' : NoiseBandSynth) :
  NoiseBandSynth_call s e a = Some (sig, s') ->
  (dim0 sig = dim0 a /\ dim1 sig = 1 /\
   dim2 sig = dim2 a * nb_resampling_factor s) /\
  nb_filterbank s' = nb_filterbank s /\ nb_training s' = nb_training s /\
  nb_resampling_factor s' = nb_resampling_factor s /\
  nb_n_filters s' = nb_n_filters s.
Proof.
  intros H; split.
  - exact (NoiseBandSynth_call_shape s e a sig s' H).
  - apply NoiseBandSynth_call_state in H as (_ & ->); repeat split.
Qed.

(** X2, witness: four bands, factor 2, amplitudes of shape (3, 1, 5). *)
Lemma NoiseBandSynth_call_frame_witness :
  exists sig s',
    NoiseBandSynth_call nb_4x16 7 (full 3 1 5 2) = Some (sig, s') /\
    (dim0 sig = 3 /\ dim1 sig = 1 /\ dim2 sig = 10) /\
    nb_filterbank s' = ramp_bank 4 16 /\ nb_training s' = true /\
    nb_resampling_factor s' = 2 /\ nb_n_filters s' = 4.
Proof.
  assert (H : exists r, NoiseBandSynth_call nb_4x16 7 (full 3 1 5 2) = Some r)
    by (eexists; reflexivity).
  destruct H as [[sig s'] H].
  exists sig, s'; split; [exact H|].
  exact (NoiseBandSynth_call_frame nb_4x16 7 (full 3 1 5 2) sig s' H).
Defined.

(** X3.  Every output sample of a successful render call is the sum over
    the bands of the upsampled amplitude times the band sample at
    position (t + offset) mod band length in evaluation mode, and at
    position (t + offset + band length - draw) mod band length in
    training mode, the draw being [entropy mod band length]. *)
Theorem NoiseBandSynth_call_reads_window (s : NoiseBandSynth) (e : nat)
    (a sig : tensor3) (s' : NoiseBandSynth) :
  NoiseBandSynth_call s e a = Some (sig, s') ->
  exists C',
    bdim (dim1 a) (rows (nb_noisebands s)) = Some C' /\
    forall b c0 t, b < dim0 a -> t < dim2 a * nb_resampling_factor s ->
      at3 sig b c0 t =
      rsum C' (fun c =>
        (at3 (interp_up (nb_resampling_factor s) a) b (bidx (dim1 a) c) t
         * at2 (nb_noisebands s) (bidx (rows (nb_noisebands s)) c)
             ((t + nb_noisebands_shift s
               + (if nb_training s
                  then cols (nb_noisebands s) - e mod cols (nb_noisebands s)
                  else 0)) mod cols (nb_noisebands s)))%R).
Proof.
  intros H.
  destruct (NoiseBandSynth_call_window s e) as (W & HW & Hcall).
  destruct (Hcall a sig s' H) as (C' & HC & Hat).
  exists C'; split; [exact HC|].
  intros b c0 t Hb Ht; rewrite (Hat b c0 t Hb Ht).
  apply rsum_ext; intros c _; rewrite HW; reflexivity.
Qed.

(** X3, witness: one band of two samples in training mode, draw 1. *)
Lemma NoiseBandSynth_call_reads_window_witness :
  exists sig s',
    NoiseBandSynth_call nb_training_1x2 1 (full 1 1 1 1) = Some (sig, s') /\
    exists C',
      bdim 1 1 = Some C' /\
      forall b c0 t, b < 1 -> t < 1 * 1 ->
        at3 sig b c0 t =
        rsum C' (fun c =>
          (at3 (interp_up 1 (full 1 1 1 1)) b (bidx 1 c) t
           * at2 (nb_noisebands nb_training_1x2) (bidx 1 c)
               ((t + 0 + (2 - 1 mod 2)) mod 2))%R).
Proof.
  assert (H : exists r, NoiseBandSynth_call nb_training_1x2 1 (full 1 1 1 1) = Some r)
    by (eexists; reflexivity).
  destruct H as [[sig s'] H].
  exists sig, s'; split; [exact H|].
  exact (NoiseBandSynth_call_reads_window nb_training_1x2 1 (full 1 1 1 1) sig s' H).
Defined.

End NoiseBandExtras.

Section NoiseBandExtras2.

(** X4.  A training-mode render returns the signal that the evaluation
    mode returns from the read offset moved back by the draw: the
    training-only rotation is a change of read position and nothing
    else. *)
Theorem training_render_is_rotated_eval (s : NoiseBandSynth) (e : nat)
    (a sig : tensor3) (s' : NoiseBandSynth) :
  nb_training s = true ->
  NoiseBandSynth_call s e a = Some (sig, s') ->
  exists sig0 s0,
    NoiseBandSynth_call
      (nb_set_shift
         ((nb_noisebands_shift s
           + (cols (nb_noisebands s) - e mod cols (nb_noisebands s)))
          mod cols (nb_noisebands s))
         (nb_train false s)) e a = Some (sig0, s0) /\
    teq3 sig sig0.
Proof.
  intros Ht H.
  set (M := cols (nb_noisebands s)) in *.
  set (s0 := nb_set_shift ((nb_noisebands_shift s + (M - e mod M)) mod M)
               (nb_train false s)).
  assert (Hok : exists r, NoiseBandSynth_call s0 e a = Some r).
  { apply NoiseBandSynth_call_ok.
    exact (proj1 (NoiseBandSynth_call_ok s e a) (ex_intro _ _ H)). }
  destruct Hok as [[sig0 s0'] H0].
  exists sig0, s0'; split; [exact H0|].
  pose proof (NoiseBandSynth_call_shape _ _ _ _ _ H) as (D0 & D1 & D2).
  pose proof (NoiseBandSynth_call_shape _ _ _ _ _ H0) as (E0 & E1 & E2).
  destruct (NoiseBandSynth_call_window s e) as (W & HW & Hcall).
  destruct (Hcall a sig s' H) as (C' & HC & Hat).
  destruct (NoiseBandSynth_call_window s0 e) as (W0 & HW0 & Hcall0).
  destruct (Hcall0 a sig0 s0' H0) as (C0 & HC0 & Hat0).
  change (nb_noisebands s0) with (nb_noisebands s) in *.
  change (nb_resampling_factor s0) with (nb_resampling_factor s) in *.
  assert (C0 = C') by congruence; subst C0.
  unfold teq3; split; [congruence|]; split; [congruence|]; split; [congruence|].
  intros b c0 t Hb _ Hlt.
  rewrite Hat, Hat0 by congruence.
  apply rsum_ext; intros c _; f_equal.
  rewrite HW, HW0, Ht.
  change (nb_training s0) with false.
  change (nb_noisebands_shift s0)
    with ((nb_noisebands_shift s + (M - e mod M)) mod M).
  fold M; rewrite Nat.add_0_r, Nat.Div0.add_mod_idemp_r.
  f_equal; f_equal; lia.
Qed.


(** X4, witness: one band of two samples, offset 0, draw 1: the
    evaluation render from offset 1. *)
Lemma training_render_is_rotated_eval_witness :
  exists sig s' sig0 s0,
    NoiseBandSynth_call nb_training_1x2 1 (full 1 1 1 1) = Some (sig, s') /\
    NoiseBandSynth_call (nb_set_shift 1 (nb_train false nb_training_1x2)) 1
      (full 1 1 1 1) = Some (sig0, s0) /\
    teq3 sig sig0.
Proof.
  assert (H : exists r, NoiseBandSynth_call nb_training_1x2 1 (full 1 1 1 1) = Some r)
    by (eexists; reflexivity).
  destruct H as [[sig s'] H].
  destruct (training_render_is_rotated_eval nb_training_1x2 1 (full 1 1 1 1)
              sig s' eq_refl H) as (sig0 & s0 & H0 & Heq).
  exists sig, s', sig0, s0; auto.
Defined.

(** X5.  Amplitudes that are zero everywhere render to a signal that is
    zero everywhere, in either mode. *)
Theorem NoiseBandSynth_silence (s : NoiseBandSynth) (e : nat)
    (a sig : tensor3) (s' : NoiseBandSynth) :
  (forall b c t, b < dim0 a -> c < dim1 a -> t < dim2 a -> at3 a b c t = 0%R) ->
  NoiseBandSynth_call s e a = Some (sig, s') ->
  forall b c t, b < dim0 sig -> c < dim1 sig -> t < dim2 sig ->
    at3 sig b c t = 0%R.
Proof.
  intros Hz H b c0 t Hb _ Ht.
  pose proof (NoiseBandSynth_call_shape _ _ _ _ _ H) as (D0 & D1 & D2).
  pose proof (proj1 (NoiseBandSynth_call_ok s e a) (ex_intro _ _ H))
    as (_ & _ & Hr & _ & _).
  destruct (NoiseBandSynth_call_window s e) as (W & _ & Hcall).
  destruct (Hcall a sig s' H) as (C' & HC & Hat).
  rewrite Hat by congruence.
  apply rsum_zero; intros c Hc.
  assert (Hc' : bidx (dim1 a) c < dim1 a) by (eapply bidx_bound; eauto).
  destruct (interp_index_bound (dim2 a) (nb_resampling_factor s) t Hr
              ltac:(congruence)) as (B0 & B1).
  cbn [at3 interp_up].
  rewrite !Hz by congruence; ring.
Qed.

(** X5, witness: four bands in training mode, amplitudes of shape
    (2, 4, 3) all zero. *)
Lemma NoiseBandSynth_silence_witness :
  exists sig s',
    NoiseBandSynth_call nb_4x16 3 (full 2 4 3 0) = Some (sig, s') /\
    forall b c t, b < dim0 sig -> c < dim1 sig -> t < dim2 sig ->
      at3 sig b c t = 0%R.
Proof.
  assert (H : exists r, NoiseBandSynth_call nb_4x16 3 (full 2 4 3 0) = Some r)
    by (eexists; reflexivity).
  destruct H as [[sig s'] H].
  exists sig, s'; split; [exact H|].
  apply (NoiseBandSynth_silence nb_4x16 3 (full 2 4 3 0) sig s'); [|exact H].
  reflexivity.
Defined.

(** X6.  Rendering is linear in the amplitudes: from one state and one
    draw, the signal of [alpha * a1 + beta * a2] is [alpha] times the
    signal of [a1] plus [beta] times the signal of [a2], and the state
    left is the same. *)
Theorem NoiseBandSynth_superposition (s : NoiseBandSynth) (e : nat)
    (a1 a2 a sig1 sig2 : tensor3) (s1 s2 : NoiseBandSynth) (alpha beta : R) :
  dim0 a1 = dim0 a -> dim1 a1 = dim1 a -> dim2 a1 = dim2 a ->
  dim0 a2 = dim0 a -> dim1 a2 = dim1 a -> dim2 a2 = dim2 a ->
  (forall b c t, b < dim0 a -> c < dim1 a -> t < dim2 a ->
     at3 a b c t = (alpha * at3 a1 b c t + beta * at3 a2 b c t)%R) ->
  NoiseBandSynth_call s e a1 = Some (sig1, s1) ->
  NoiseBandSynth_call s e a2 = Some (sig2, s2) ->
  exists sig,
    NoiseBandSynth_call s e a = Some (sig, s1) /\
    forall b c t, b < dim0 sig -> c < dim1 sig -> t < dim2 sig ->
      at3 sig b c t = (alpha * at3 sig1 b c t + beta * at3 sig2 b c t)%R.
Proof.
  intros A0 A1 A2 B0 B1 B2 Hlin H1 H2.
  pose proof (proj1 (NoiseBandSynth_call_ok s e a1) (ex_intro _ _ H1))
    as (Hc & Hl & Hr & HM & Hbd).
  assert (Hok : exists r, NoiseBandSynth_call s e a = Some r).
  { apply NoiseBandSynth_call_ok; repeat split; try congruence. }
  destruct Hok as [[sig s'] H].
  pose proof (NoiseBandSynth_call_state _ _ _ _ _ H) as (_ & Hs').
  pose proof (NoiseBandSynth_call_state _ _ _ _ _ H1) as (_ & Hs1).
  assert (Es : s' = s1) by congruence.
  clear Hs' Hs1; subst s'.
  exists sig; split; [exact H|].
  pose proof (NoiseBandSynth_call_shape _ _ _ _ _ H) as (D0 & D1 & D2).
  destruct (NoiseBandSynth_call_window s e) as (W & _ & Hcall).
  destruct (Hcall a sig s1 H) as (C & HC & Hat).
  destruct (Hcall a1 sig1 s1 H1) as (C1 & HC1 & Hat1).
  destruct (Hcall a2 sig2 s2 H2) as (C2 & HC2 & Hat2).
  rewrite A1 in HC1; rewrite B1 in HC2.
  assert (C1 = C) by congruence; assert (C2 = C) by congruence; subst C1 C2.
  intros b c0 t Hb _ Ht.
  rewrite Hat, Hat1, Hat2 by congruence.
  rewrite <- rsum_linear.
  apply rsum_ext; intros c Hc'.
  assert (Hci : bidx (dim1 a) c < dim1 a) by (eapply bidx_bound; eauto).
  rewrite A1, B1.
  rewrite (interp_up_linear (nb_resampling_factor s) a1 a2 a alpha beta
             b (bidx (dim1 a) c) t Hr A2 B2 ltac:(congruence)).
  - ring.
  - intros i Hi; apply Hlin; congruence.
Qed.

(** X6, witness: the constant amplitudes 5, 7 and 31 = 2 * 5 + 3 * 7. *)
Lemma NoiseBandSynth_superposition_witness :
  exists sig1 sig2 s1 sig,
    NoiseBandSynth_call nb_1x3 0 (full 1 1 2 5) = Some (sig1, s1) /\
    NoiseBandSynth_call nb_1x3 0 (full 1 1 2 7) = Some (sig2, s1) /\
    NoiseBandSynth_call nb_1x3 0 (full 1 1 2 31) = Some (sig, s1) /\
    forall b c t, b < dim0 sig -> c < dim1 sig -> t < dim2 sig ->
      at3 sig b c t = (2 * at3 sig1 b c t + 3 * at3 sig2 b c t)%R.
Proof.
  assert (H1 : exists r, NoiseBandSynth_call nb_1x3 0 (full 1 1 2 5) = Some r)
    by (eexists; reflexivity).
  destruct H1 as [[sig1 s1] H1].
  assert (H2 : exists r, NoiseBandSynth_call nb_1x3 0 (full 1 1 2 7) = Some r)
    by (eexists; reflexivity).
  destruct H2 as [[sig2 s2] H2].
  destruct (NoiseBandSynth_superposition nb_1x3 0 (full 1 1 2 5) (full 1 1 2 7)
              (full 1 1 2 31) sig1 sig2 s1 s2 2 3
              eq_refl eq_refl eq_refl eq_refl eq_refl eq_refl
              ltac:(intros; cbn; lra) H1 H2) as (sig & H & Hlin).
  assert (Es : s2 = s1).
  { apply NoiseBandSynth_call_state in H1 as (_ & ->).
    apply NoiseBandSynth_call_state in H2 as (_ & ->). reflexivity. }
  subst s2.
  exists sig1, sig2, s1, sig; auto.
Defined.

End NoiseBandExtras2.

Section NoiseBandExtras3.

(** X7.  When the stored offset is below the band length and the
    upsampled length of the trajectory is a multiple of the band length,
    a successful render call leaves the generator exactly as it was. *)
Theorem read_offset_full_loops (s : NoiseBandSynth) (e : nat)
    (a sig : tensor3) (s' : NoiseBandSynth) :
  nb_noisebands_shift s < cols (nb_noisebands s) ->
  (dim2 a * nb_resampling_factor s) mod cols (nb_noisebands s) = 0 ->
  NoiseBandSynth_call s e a = Some (sig, s') ->
  s' = s.
Proof.
  intros Hlt Hmod H.
  apply NoiseBandSynth_call_state in H as (HM & ->).
  rewrite <- Nat.Div0.add_mod_idemp_r, Hmod, Nat.add_0_r.
  rewrite Nat.mod_small by exact Hlt.
  destruct s; reflexivity.
Qed.

(** X7, witness: band length 16, offset 5, eight control steps at
    factor 2. *)
Lemma read_offset_full_loops_witness :
  exists sig,
    NoiseBandSynth_call (nb_set_shift 5 nb_4x16) 9 (full 1 4 8 1)
      = Some (sig, nb_set_shift 5 nb_4x16).
Proof.
  assert (H : exists r, NoiseBandSynth_call (nb_set_shift 5 nb_4x16) 9
                          (full 1 4 8 1) = Some r)
    by (eexists; reflexivity).
  destruct H as [[sig s'] H].
  exists sig; rewrite H; do 2 f_equal.
  apply (read_offset_full_loops (nb_set_shift 5 nb_4x16) 9 (full 1 4 8 1) sig s');
    [cbn; lia | reflexivity | exact H].
Defined.

(** X8.  A successful sequence of render calls, each with a draw of its
    own, returns one signal per call and leaves the offset at the
    starting offset plus the total upsampled length, modulo the band
    length. *)
Theorem read_offset_after_calls (inputs : list (nat * tensor3)) :
  forall (s : NoiseBandSynth) (outs : list tensor3) (s' : NoiseBandSynth),
  NoiseBandSynth_calls s inputs = Some (outs, s') ->
  List.length outs = List.length inputs /\
  (inputs <> [] ->
   s' = nb_set_shift
          ((nb_noisebands_shift s
            + list_sum (map (fun i => dim2 (snd i)) inputs)
              * nb_resampling_factor s)
           mod cols (nb_noisebands s)) s).
Proof.
  induction inputs as [|[e a] rest IH]; intros s outs s' H.
  - injection H as <- <-; split; [reflexivity | congruence].
  - cbn [NoiseBandSynth_calls] in H.
    apply bind_Some in H as ([out s1] & H1 & H).
    apply bind_Some in H as ([outs' s2] & H2 & H).
    injection H as <- <-.
    destruct (IH s1 outs' s2 H2) as (Hlen & Hst).
    split; [cbn [List.length]; congruence|].
    intros _.
    apply NoiseBandSynth_call_state in H1 as (HM & Hs1).
    destruct rest as [|i rest'].
    { injection H2 as _ <-.
      rewrite Hs1; cbn [map list_sum fold_right snd].
      rewrite Nat.add_0_r; reflexivity. }
    rewrite Hst by discriminate.
    rewrite Hs1.
    match goal with
    | |- nb_set_shift ?x _ = nb_set_shift ?y s =>
        assert (E : x = y); [|rewrite E; reflexivity]
    end.
    unfold nb_noisebands.
    cbn [nb_set_shift nb_noisebands_shift nb_resampling_factor nb_filterbank].
    rewrite Nat.Div0.add_mod_idemp_l.
    f_equal.
    change (list_sum (map (fun i0 => dim2 (snd i0)) ((e, a) :: i :: rest')))
      with (dim2 a + list_sum (map (fun i0 => dim2 (snd i0)) (i :: rest'))).
    lia.
Qed.

(** X8, witness: band length 3, factor 2, trajectories of 1, 2 and 1
    control steps: 8 mod 3 = 2. *)
Lemma read_offset_after_calls_witness :
  exists outs s',
    NoiseBandSynth_calls nb_1x3 [(0, full 1 1 1 1); (4, full 1 1 2 1);
                                 (9, full 1 1 1 1)] = Some (outs, s') /\
    List.length outs = 3 /\
    nb_noisebands_shift s' = 2.
Proof.
  assert (H : exists r, NoiseBandSynth_calls nb_1x3
                [(0, full 1 1 1 1); (4, full 1 1 2 1); (9, full 1 1 1 1)] = Some r)
    by (eexists; reflexivity).
  destruct H as [[outs s'] H].
  exists outs, s'; split; [exact H|].
  destruct (read_offset_after_calls _ nb_1x3 outs s' H) as (Hlen & Hst).
  split; [exact Hlen|].
  rewrite Hst by discriminate; reflexivity.
Defined.

End NoiseBandExtras3.

(** ** SineSynth, continued *)

Section MoreSineFacts.

(** The last statement of a successful call: the signal is the sum over
    the channels of the upsampled amplitudes times the sine of some
    phase tensor. *)
Lemma SineSynth_call_product (s : SineSynth) (f a sig : tensor3) (s' : SineSynth) :
  SineSynth_call s f a = Some (sig, s') ->
  exists Ph prod,
    mul (interp_up (ss_resampling_factor s) a) (sin3 Ph) = Some prod /\
    sig = sum_dim1 prod /\
    dim1 a <> 0 /\ dim2 a <> 0 /\ ss_resampling_factor s <> 0.
Proof.
  unfold SineSynth_call; intros H.
  set (self := if ss_streaming s && phases_stale s (dim0 f)
               then ss_set_phases (zeros2 (dim0 f) (ss_n_sines s)) s else s) in H.
  assert (Er : ss_resampling_factor self = ss_resampling_factor s)
    by (unfold self; destruct (_ && _); reflexivity).
  rewrite Er in H.
  apply bind_Some in H as (F & HF & H).
  apply bind_Some in H as (A & HA & H).
  apply bind_Some in H as ([Ph self'] & _ & H).
  apply bind_Some in H as (prod & Hprod & H).
  apply interpolate_Some in HA as (H1 & H2 & Hr & ->).
  injection H as <- _.
  exists Ph, prod; auto.
Qed.

(** The state a successful streaming call leaves. *)
Lemma SineSynth_call_streaming_state (s : SineSynth) (P : tensor2)
    (f a sig : tensor3) (s' : SineSynth) :
  ss_streaming s = true -> ss_phases s = Some P -> rows P = dim0 f ->
  SineSynth_call s f a = Some (sig, s') ->
  exists P',
    s' = ss_set_phases P' s /\ rows P' = rows P /\ cols P' = cols P /\
    forall b c, (0 <= at2 P' b c < 2 * PI)%R.
Proof.
  intros Hs HP Hrows H.
  rewrite (SineSynth_call_streaming s P f a Hs HP Hrows) in H.
  apply bind_Some in H as (F & _ & H).
  apply bind_Some in H as (A & _ & H).
  apply bind_Some in H as (sh & _ & H).
  apply bind_Some in H as (last & _ & H).
  apply bind_Some in H as (stored & Hst & H).
  apply bind_Some in H as (prod & _ & H).
  injection H as _ <-.
  exists stored; split; [reflexivity|].
  unfold copy_ in Hst.
  destruct (_ && _); [|discriminate].
  injection Hst as <-; cbn [rows cols at2 remainder2 map2].
  repeat split; apply fmod_range; pose proof PI_RGT_0; lra.
Qed.


(** X9.  Outside streaming mode, on frequencies and amplitudes of one
    shape (any channel count), the call succeeds, leaves the generator
    unchanged and returns, for every batch element, the sum over the
    channels of the upsampled amplitude times the sine of the running
    sum of [frequency * 2 * pi / fs]: wrapping the phase into [0, 2 pi)
    changes nothing of the signal. *)
Theorem offline_render_is_oscillator_bank (s : SineSynth) (f a : tensor3) :
  ss_streaming s = false ->
  dim0 a = dim0 f -> dim1 a = dim1 f -> dim2 a = dim2 f ->
  dim1 f <> 0 -> dim2 f <> 0 -> ss_resampling_factor s <> 0 ->
  exists sig,
    SineSynth_call s f a = Some (sig, s) /\
    teq3 sig (oscillator_bank (ss_fs s)
                (interp_up (ss_resampling_factor s) f)
                (interp_up (ss_resampling_factor s) a)).
Proof.
  intros Hs H0 H1 H2 Hc HL Hr.
  apply SineSynth_call_offline_spec; try assumption.
  unfold chunk_shape; cbn [fst snd]; auto 10.
Qed.

(** X9, witness: shape (2, 3, 4) on a generator built for one
    oscillator. *)
Lemma offline_render_is_oscillator_bank_witness :
  exists sig,
    SineSynth_call (ss_1 false) (full 2 3 4 1) (full 2 3 4 5)
      = Some (sig, ss_1 false) /\
    teq3 sig (oscillator_bank 8 (interp_up 2 (full 2 3 4 1))
                (interp_up 2 (full 2 3 4 5))).
Proof.
  apply (offline_render_is_oscillator_bank (ss_1 false) (full 2 3 4 1)
           (full 2 3 4 5)); cbn; (reflexivity || discriminate).
Defined.

(** X10.  A freshly built streaming generator that renders consecutive
    chunks of shape (batch, n_sines, len) returns, concatenated, the
    oscillator bank on the concatenation of the separately upsampled
    chunks: the phase carried from chunk to chunk is the phase the
    audio-rate trajectory has accumulated, up to whole turns. *)
Theorem chunked_streaming_is_oscillator_bank (fs : Z) (n r batch : nat)
    (chunk : tensor3 * tensor3) (rest : list (tensor3 * tensor3)) :
  n <> 0 -> r <> 0 ->
  Forall (chunk_shape batch n) (chunk :: rest) ->
  exists out s',
    SineSynth_chunked (SineSynth_init fs n r true) chunk rest = Some (out, s') /\
    teq3 out
      (oscillator_bank fs
         (cat_list (interp_up r (fst chunk))
            (map (fun c => interp_up r (fst c)) rest))
         (cat_list (interp_up r (snd chunk))
            (map (fun c => interp_up r (snd c)) rest))).
Proof.
  exact (SineSynth_chunked_spec fs n r batch chunk rest).
Qed.

(** X10, witness: a chunk of one control step with amplitude 0 followed
    by a chunk of two control steps with frequency 3 and amplitude 4. *)
Lemma chunked_streaming_is_oscillator_bank_witness :
  exists out s',
    SineSynth_chunked (ss_1 true) (const_chunk 1 1 0) [const_chunk 2 3 4]
      = Some (out, s') /\
    teq3 out
      (oscillator_bank 8
         (cat (interp_up 2 (full 1 1 1 1)) (interp_up 2 (full 1 1 2 3)))
         (cat (interp_up 2 (full 1 1 1 0)) (interp_up 2 (full 1 1 2 4)))).
Proof.
  apply (chunked_streaming_is_oscillator_bank 8 1 2 1 (const_chunk 1 1 0)
           [const_chunk 2 3 4]); try discriminate.
  repeat constructor; cbn; discriminate.
Defined.

(** X11.  After a successful streaming call on a generator whose phase
    buffer, if allocated, has [n_sines] columns, the buffer is allocated
    with shape (batch, n_sines), every stored phase lies in [0, 2 pi),
    and the configuration is unchanged; the same holds again for the
    next call. *)
Theorem streaming_phase_state_invariant (s : SineSynth) (f a sig : tensor3)
    (s' : SineSynth) :
  ss_streaming s = true -> phases_wf s ->
  SineSynth_call s f a = Some (sig, s') ->
  exists P',
    ss_phases s' = Some P' /\
    rows P' = dim0 f /\ cols P' = ss_n_sines s /\
    (forall b c, (0 <= at2 P' b c < 2 * PI)%R) /\
    ss_fs s' = ss_fs s /\ ss_n_sines s' = ss_n_sines s /\
    ss_resampling_factor s' = ss_resampling_factor s /\
    ss_streaming s' = true /\ phases_wf s'.
Proof.
  intros Hs Hwf H.
  destruct (phases_stale s (dim0 f)) eqn:Hp.
  - rewrite (SineSynth_call_stale s f a Hs Hp) in H.
    destruct (SineSynth_call_streaming_state
                (ss_set_phases (zeros2 (dim0 f) (ss_n_sines s)) s)
                (zeros2 (dim0 f) (ss_n_sines s)) f a sig s' Hs eq_refl eq_refl H)
      as (P' & -> & Hrows & Hcols & Hrange).
    exists P'; unfold phases_wf; cbn [ss_phases ss_set_phases ss_fs ss_n_sines
      ss_resampling_factor ss_streaming rows cols zeros2] in *.
    repeat split; try assumption; apply Hrange.
  - unfold phases_stale in Hp; unfold phases_wf in Hwf.
    destruct (ss_phases s) as [P|] eqn:HP; [|discriminate].
    apply negb_false_iff, Nat.eqb_eq in Hp.
    destruct (SineSynth_call_streaming_state s P f a sig s' Hs HP Hp H)
      as (P' & -> & Hrows & Hcols & Hrange).
    exists P'; unfold phases_wf; cbn [ss_phases ss_set_phases ss_fs ss_n_sines
      ss_resampling_factor ss_streaming] in *.
    repeat split; try congruence; apply Hrange.
Qed.

(** X11, witness: the first call of a streaming generator, batch size 2. *)
Lemma streaming_phase_state_invariant_witness :
  exists sig s' P',
    SineSynth_call (ss_1 true) (full 2 1 3 1) (full 2 1 3 1) = Some (sig, s') /\
    ss_phases s' = Some P' /\ rows P' = 2 /\ cols P' = 1 /\
    (forall b c, (0 <= at2 P' b c < 2 * PI)%R) /\ phases_wf s'.
Proof.
  assert (H : exists r, SineSynth_call (ss_1 true) (full 2 1 3 1) (full 2 1 3 1)
                        = Some r) by (eexists; reflexivity).
  destruct H as [[sig s'] H].
  destruct (streaming_phase_state_invariant (ss_1 true) (full 2 1 3 1)
              (full 2 1 3 1) sig s' eq_refl I H)
    as (P' & HP & Hr & Hc & Hrange & _ & _ & _ & _ & Hwf).
  exists sig, s', P'; auto 10.
Defined.

(** X12.  When the stored phase buffer was allocated for another batch size
    (or not at all), a streaming call does what the call on a freshly
    built generator of the same configuration does: the stored phases
    are dropped, never read. *)
Theorem batch_change_resets_phases (s : SineSynth) (f a : tensor3) :
  ss_streaming s = true -> phases_stale s (dim0 f) = true ->
  SineSynth_call s f a
  = SineSynth_call
      (SineSynth_init (ss_fs s) (ss_n_sines s) (ss_resampling_factor s) true) f a.
Proof.
  intros Hs Hp.
  rewrite (SineSynth_call_stale s f a Hs Hp).
  rewrite (SineSynth_call_stale (SineSynth_init _ _ _ true) f a eq_refl eq_refl).
  destruct s as [fs n r p st]; cbn in Hs; subst st; reflexivity.
Qed.

(** X12, witness: a buffer for batch size 1 holding phase 3, a call with
    batch size 2. *)
Lemma batch_change_resets_phases_witness :
  SineSynth_call (ss_set_phases (phases_1x1 3) (ss_1 true)) (full 2 1 3 1) (full 2 1 3 1)
  = SineSynth_call (ss_1 true) (full 2 1 3 1) (full 2 1 3 1).
Proof.
  exact (batch_change_resets_phases (ss_set_phases (phases_1x1 3) (ss_1 true))
           (full 2 1 3 1) (full 2 1 3 1) eq_refl eq_refl).
Defined.

End MoreSineFacts.

Section MoreSineFacts2.

Lemma rsum_shift (n : nat) (g : nat -> R) (c : R) :
  rsum n (fun i => (g i + c)%R) = (rsum n g + IZR (Z.of_nat n) * c)%R.
Proof.
  induction n as [|n IH]; cbn [rsum].
  - simpl; ring.
  - rewrite IH, Nat2Z.inj_succ, succ_IZR; ring.
Qed.

(** X13.  Outside streaming mode, frequencies that differ everywhere by
    one whole multiple of the sample rate render to the same signal. *)
Theorem offline_render_aliasing (s : SineSynth) (f f' a : tensor3) (k : Z) :
  ss_streaming s = false -> ss_fs s <> 0%Z ->
  dim0 a = dim0 f -> dim1 a = dim1 f -> dim2 a = dim2 f ->
  dim0 f' = dim0 f -> dim1 f' = dim1 f -> dim2 f' = dim2 f ->
  dim1 f <> 0 -> dim2 f <> 0 -> ss_resampling_factor s <> 0 ->
  (forall b c t, b < dim0 f -> c < dim1 f -> t < dim2 f ->
     at3 f' b c t = (at3 f b c t + IZR k * IZR (ss_fs s))%R) ->
  exists sig sig',
    SineSynth_call s f a = Some (sig, s) /\
    SineSynth_call s f' a = Some (sig', s) /\
    teq3 sig sig'.
Proof.
  intros Hs Hfs A0 A1 A2 F0 F1 F2 Hc HL Hr Hshift.
  destruct (SineSynth_call_offline_spec s f a Hs) as (sig & H & Hsig);
    try assumption.
  { unfold chunk_shape; cbn [fst snd]; auto 10. }
  destruct (SineSynth_call_offline_spec s f' a Hs) as (sig' & H' & Hsig');
    try congruence.
  { unfold chunk_shape; cbn [fst snd]; repeat split; congruence. }
  exists sig, sig'; split; [exact H|]; split; [exact H'|].
  apply (teq3_trans _ _ _ Hsig), teq3_sym, (teq3_trans _ _ _ Hsig').
  set (r := ss_resampling_factor s) in *.
  unfold teq3; cbn [dim0 dim1 dim2 oscillator_bank interp_up].
  split; [congruence|]; split; [reflexivity|]; split; [congruence|].
  intros b c0 t Hb _ Ht.
  unfold oscillator_bank; cbn [at3].
  change (dim1 (interp_up r f')) with (dim1 f').
  change (dim1 (interp_up r f)) with (dim1 f).
  rewrite F1; apply rsum_ext; intros c Hcc; f_equal.
  assert (E : forall i, i < S t ->
            (at3 (interp_up r f') b c i * 2 * PI / IZR (ss_fs s))%R
            = (at3 (interp_up r f) b c i * 2 * PI / IZR (ss_fs s)
               + IZR k * (2 * PI))%R).
  { intros i Hi; cbn [at3 interp_up].
    destruct (interp_index_bound (dim2 f) r i Hr ltac:(lia)) as (B0 & B1).
    rewrite F2, !Hshift by congruence.
    field; apply not_0_IZR; exact Hfs. }
  rewrite (rsum_ext (S t) _ _ E), rsum_shift.
  match goal with
  | |- sin (?x + IZR ?n * (IZR k * (2 * PI))) = sin ?y =>
      replace (x + IZR n * (IZR k * (2 * PI)))%R
        with (y + IZR (n * k) * (2 * PI))%R by (rewrite mult_IZR; ring);
      apply sin_period_Z
  end.
Qed.

(** X13, witness: sample rate 8, frequencies 1 and 17 = 1 + 2 * 8. *)
Lemma offline_render_aliasing_witness :
  exists sig sig',
    SineSynth_call (ss_1 false) (full 1 1 3 1) (full 1 1 3 5)
      = Some (sig, ss_1 false) /\
    SineSynth_call (ss_1 false) (full 1 1 3 17) (full 1 1 3 5)
      = Some (sig', ss_1 false) /\
    teq3 sig sig'.
Proof.
  apply (offline_render_aliasing (ss_1 false) (full 1 1 3 1) (full 1 1 3 17)
           (full 1 1 3 5) 2); try reflexivity; try discriminate;
    intros b c t _ _ _; cbn; lra.
Defined.

(** X14.  Amplitudes that are zero everywhere render to a signal that is
    zero everywhere, whatever the frequencies, the mode and the stored
    phases. *)
Theorem SineSynth_silence (s : SineSynth) (f a sig : tensor3) (s' : SineSynth) :
  (forall b c t, b < dim0 a -> c < dim1 a -> t < dim2 a -> at3 a b c t = 0%R) ->
  SineSynth_call s f a = Some (sig, s') ->
  forall b c t, b < dim0 sig -> c < dim1 sig -> t < dim2 sig ->
    at3 sig b c t = 0%R.
Proof.
  intros Hz H b c0 t Hb _ Ht.
  destruct (SineSynth_call_product s f a sig s' H)
    as (Ph & prod & Hprod & -> & _ & _ & Hr).
  apply bcast_Some in Hprod as (D0 & D1 & D2 & Hat).
  cbn [dim0 dim1 dim2 sum_dim1 interp_up] in *.
  cbn [at3 sum_dim1].
  apply rsum_zero; intros c Hc.
  rewrite Hat.
  cbn [dim0 dim1 dim2 interp_up].
  pose proof (bidx_bound _ _ _ _ D0 Hb) as Bb.
  pose proof (bidx_bound _ _ _ _ D1 Hc) as Bc.
  pose proof (bidx_bound _ _ _ _ D2 Ht) as Bt.
  destruct (interp_index_bound (dim2 a) (ss_resampling_factor s) _ Hr Bt)
    as (B0 & B1).
  cbn [at3 interp_up].
  rewrite !Hz by assumption; ring.
Qed.

(** X14, witness: a streaming generator, frequency 440, amplitude 0. *)
Lemma SineSynth_silence_witness :
  exists sig s',
    SineSynth_call (ss_1 true) (full 2 1 3 440) (full 2 1 3 0) = Some (sig, s') /\
    forall b c t, b < dim0 sig -> c < dim1 sig -> t < dim2 sig ->
      at3 sig b c t = 0%R.
Proof.
  assert (H : exists r, SineSynth_call (ss_1 true) (full 2 1 3 440) (full 2 1 3 0)
                        = Some r) by (eexists; reflexivity).
  destruct H as [[sig s'] H].
  exists sig, s'; split; [exact H|].
  apply (SineSynth_silence (ss_1 true) (full 2 1 3 440) (full 2 1 3 0) sig s');
    [reflexivity | exact H].
Defined.

(** X15.  [parameters_size] of a SineSynth is its [total_params]; a
    HarmonicSynth inherits [parameters_size] = 2 * n_harmonics while its
    [total_params] is n_harmonics + 1, and the two agree only for one
    harmonic. *)
Theorem parameters_size_agreement :
  (forall s : SineSynth, SineSynth_parameters_size s = total_params (Sine s)) /\
  (forall (fs : Z) (n r : nat) (streaming : bool),
     HarmonicSynth_parameters_size (HarmonicSynth_init fs n r streaming) = 2 * n /\
     total_params (Harmonic (HarmonicSynth_init fs n r streaming)) = n + 1 /\
     (HarmonicSynth_parameters_size (HarmonicSynth_init fs n r streaming)
      = total_params (Harmonic (HarmonicSynth_init fs n r streaming))
      <-> n = 1)).
Proof.
  split.
  - intros s; unfold SineSynth_parameters_size, total_params; simpl; lia.
  - intros fs n r st.
    unfold HarmonicSynth_parameters_size, SineSynth_parameters_size, total_params.
    simpl; lia.
Qed.

End MoreSineFacts2.

(** ** HarmonicSynth, continued *)

Section HarmonicExtras.

(** X16.  For a fundamental of shape (batch, 1, len) and at least one
    harmonic, the frequencies handed to the sine rendering have shape
    (batch, n_harmonics, len) and harmonic h of every batch element is
    the fundamental times h + 1. *)
Theorem harmonic_frequencies_of_slot (self : HarmonicSynth) (f : tensor3) :
  hs_n_harmonics self <> 0 -> dim1 f = 1 ->
  exists fr,
    harmonic_frequencies self (Rank3 f) = Some fr /\
    dim0 fr = dim0 f /\ dim1 fr = hs_n_harmonics self /\ dim2 fr = dim2 f /\
    forall b h t, b < dim0 f -> h < hs_n_harmonics self -> t < dim2 f ->
      at3 fr b h t = (at3 f b 0 t * IZR (Z.of_nat (h + 1)))%R.
Proof.
  intros _; exact (harmonic_frequencies_rank3 self f).
Qed.

(** X16, witness: two harmonics on the fundamentals 100 and 200. *)
Lemma harmonic_frequencies_of_slot_witness :
  exists fr,
    harmonic_frequencies hs_2 (Rank3 fundamental_3d) = Some fr /\
    dim0 fr = 2 /\ dim1 fr = 2 /\ dim2 fr = 1 /\
    forall b h t, b < 2 -> h < 2 -> t < 1 ->
      at3 fr b h t = (at3 fundamental_3d b 0 t * IZR (Z.of_nat (h + 1)))%R.
Proof.
  apply (harmonic_frequencies_of_slot hs_2 fundamental_3d);
    [discriminate | reflexivity].
Defined.

(** X17.  For a 2-D fundamental the derivation fails exactly when the
    number of rows differs from [n_harmonics] and neither is 1, the
    error of a product that cannot broadcast; [n_harmonics = 0] is no
    error of its own, the harmonic numbers are then an empty tensor.
    When the derivation succeeds the result has a single batch element,
    the rows of the fundamental lying along the harmonic axis. *)
Theorem harmonic_frequencies_of_matrix (self : HarmonicSynth) (f : tensor2) :
  (harmonic_frequencies self (Rank2 f) = None <->
   rows f <> hs_n_harmonics self /\ rows f <> 1 /\ hs_n_harmonics self <> 1) /\
  (forall fr, harmonic_frequencies self (Rank2 f) = Some fr ->
     dim0 fr = 1 /\ bdim (rows f) (hs_n_harmonics self) = Some (dim1 fr) /\
     dim2 fr = cols f /\
     forall j t, j < dim1 fr -> t < cols f ->
       at3 fr 0 j t =
       (at2 f (bidx (rows f) j) t
        * IZR (Z.of_nat (bidx (hs_n_harmonics self) j + 1)))%R).
Proof.
  unfold harmonic_frequencies, harmonic_numbers.
  unfold mul, bcast; cbn [dim0 dim1 dim2 unsqueeze0].
  rewrite bdim_same, bdim_one_r; cbn [bind].
  destruct (bdim (rows f) (hs_n_harmonics self)) as [d|] eqn:Ed; cbn [bind].
  - split.
    + split; [discriminate|].
      intros (H1 & H2 & H3).
      rewrite bdim_None in Ed by assumption; discriminate.
    + intros fr [= <-]; cbn [dim0 dim1 dim2 at3 at2 unsqueeze0].
      repeat split.
      intros j t Hj Ht.
      rewrite (bidx_lt _ _ Ht); reflexivity.
  - split; [|discriminate].
    split; [|reflexivity].
    intros _.
    unfold bdim in Ed.
    destruct (rows f =? hs_n_harmonics self) eqn:E1; [discriminate|].
    destruct (rows f =? 1) eqn:E2; [discriminate|].
    destruct (hs_n_harmonics self =? 1) eqn:E3; [discriminate|].
    apply Nat.eqb_neq in E1, E2, E3; auto.
Qed.

End HarmonicExtras.

(** ** The generator register *)

Section RegisterExtras.

Lemma getitem_nonneg (self : SynthRegister) (i : Z) :
  (0 <= i < Z.of_nat (List.length (synths self)))%Z ->
  SynthRegister_getitem self i = nth_error (synths self) (Z.to_nat i).
Proof.
  intros H; unfold SynthRegister_getitem.
  assert (E : ((0 <=? i) && (i <? Z.of_nat (List.length (synths self))))%Z = true)
    by (apply andb_true_iff; split; [apply Z.leb_le | apply Z.ltb_lt]; lia).
  rewrite E; reflexivity.
Qed.

Lemma getitem_neg (self : SynthRegister) (i : Z) :
  (- Z.of_nat (List.length (synths self)) <= i < 0)%Z ->
  SynthRegister_getitem self i
  = nth_error (synths self) (Z.to_nat (Z.of_nat (List.length (synths self)) + i)).
Proof.
  intros H; unfold SynthRegister_getitem.
  assert (E1 : ((0 <=? i) && (i <? Z.of_nat (List.length (synths self))))%Z = false)
    by (apply andb_false_iff; left; apply Z.leb_gt; lia).
  assert (E2 : ((- Z.of_nat (List.length (synths self)) <=? i) && (i <? 0))%Z = true)
    by (apply andb_true_iff; split; [apply Z.leb_le | apply Z.ltb_lt]; lia).
  rewrite E1, E2; reflexivity.
Qed.

Lemma register_length (self : SynthRegister) (synth : BaseSynth) :
  List.length (synths (register self synth)) = S (List.length (synths self)).
Proof. unfold register; cbn [synths]; rewrite List.length_app; cbn; lia. Qed.

(** X18.  [register] appends: the total width grows by the width of the
    new generator, the new generator is found at index [len] and at
    index [-1], and every generator registered before keeps its
    non-negative index, its negative index moving down by one. *)
Theorem register_appends (self : SynthRegister) (synth : BaseSynth) :
  register_total_params (register self synth)
    = register_total_params self + total_params synth /\
  SynthRegister_getitem (register self synth)
    (Z.of_nat (List.length (synths self))) = Some synth /\
  SynthRegister_getitem (register self synth) (-1) = Some synth /\
  (forall i : Z, (0 <= i < Z.of_nat (List.length (synths self)))%Z ->
     SynthRegister_getitem (register self synth) i
     = SynthRegister_getitem self i) /\
  (forall i : Z, (- Z.of_nat (List.length (synths self)) <= i < 0)%Z ->
     SynthRegister_getitem (register self synth) (i - 1)
     = SynthRegister_getitem self i).
Proof.
  pose proof (register_length self synth) as L.
  split; [|split; [|split; [|split]]].
  - unfold register_total_params, register; cbn [synths].
    rewrite map_app, list_sum_app; simpl; lia.
  - rewrite getitem_nonneg by lia.
    unfold register; cbn [synths].
    rewrite Nat2Z.id, nth_error_app2, Nat.sub_diag by lia; reflexivity.
  - rewrite getitem_neg by lia.
    rewrite L.
    replace (Z.to_nat (Z.of_nat (S (List.length (synths self))) + -1))
      with (List.length (synths self)) by lia.
    unfold register; cbn [synths].
    rewrite nth_error_app2, Nat.sub_diag by lia; reflexivity.
  - intros i Hi.
    rewrite (getitem_nonneg self) by lia.
    rewrite getitem_nonneg by lia.
    unfold register; cbn [synths].
    apply nth_error_app1; lia.
  - intros i Hi.
    rewrite (getitem_neg self) by lia.
    rewrite getitem_neg by lia.
    rewrite L.
    replace (Z.to_nat (Z.of_nat (S (List.length (synths self))) + (i - 1)))
      with (Z.to_nat (Z.of_nat (List.length (synths self)) + i)) by lia.
    unfold register; cbn [synths].
    apply nth_error_app1; lia.
Qed.

(** X19.  [__getitem__] raises exactly for an index outside
    [-len, len); inside, it returns a registered generator, and a
    negative index [i] names the generator at [len + i].  The empty
    register raises on every index. *)
Theorem getitem_in_range (self : SynthRegister) (index : Z) :
  (SynthRegister_getitem self index = None <->
   (index < - Z.of_nat (List.length (synths self))
    \/ Z.of_nat (List.length (synths self)) <= index)%Z) /\
  (forall g, SynthRegister_getitem self index = Some g -> In g (synths self)) /\
  ((- Z.of_nat (List.length (synths self)) <= index < 0)%Z ->
   SynthRegister_getitem self index
   = SynthRegister_getitem self (Z.of_nat (List.length (synths self)) + index)) /\
  SynthRegister_getitem SynthRegister_init index = None.
Proof.
  split; [|split; [|split]].
  - destruct (Z_lt_le_dec index 0) as [Hneg|Hpos].
    + destruct (Z_lt_le_dec index (- Z.of_nat (List.length (synths self)))) as [Hl|Hl].
      * split; [intros _; lia|intros _].
        unfold SynthRegister_getitem.
        assert (E1 : ((0 <=? index)
                      && (index <? Z.of_nat (List.length (synths self))))%Z = false)
          by (apply andb_false_iff; left; apply Z.leb_gt; lia).
        assert (E2 : ((- Z.of_nat (List.length (synths self)) <=? index)
                      && (index <? 0))%Z = false)
          by (apply andb_false_iff; left; apply Z.leb_gt; lia).
        rewrite E1, E2; reflexivity.
      * rewrite getitem_neg by lia.
        rewrite nth_error_None; lia.
    + destruct (Z_lt_le_dec index (Z.of_nat (List.length (synths self)))) as [Hl|Hl].
      * rewrite getitem_nonneg by lia.
        rewrite nth_error_None; lia.
      * split; [intros _; lia|intros _].
        unfold SynthRegister_getitem.
        assert (E1 : ((0 <=? index)
                      && (index <? Z.of_nat (List.length (synths self))))%Z = false)
          by (apply andb_false_iff; right; apply Z.ltb_ge; lia).
        assert (E2 : ((- Z.of_nat (List.length (synths self)) <=? index)
                      && (index <? 0))%Z = false)
          by (apply andb_false_iff; right; apply Z.ltb_ge; lia).
        rewrite E1, E2; reflexivity.
  - intros g; unfold SynthRegister_getitem.
    destruct ((0 <=? index) && (index <? Z.of_nat (List.length (synths self))))%Z;
      [apply nth_error_In|].
    destruct ((- Z.of_nat (List.length (synths self)) <=? index) && (index <? 0))%Z;
      [apply nth_error_In | discriminate].
  - intros Hi.
    rewrite getitem_neg by lia.
    rewrite getitem_nonneg by lia.
    reflexivity.
  - unfold SynthRegister_getitem, SynthRegister_init; cbn [synths List.length].
    destruct ((0 <=? index) && (index <? Z.of_nat 0))%Z eqn:E1.
    + apply andb_true_iff in E1 as (A & B).
      apply Z.leb_le in A; apply Z.ltb_lt in B; lia.
    + destruct ((- Z.of_nat 0 <=? index) && (index <? 0))%Z eqn:E2; [|reflexivity].
      apply andb_true_iff in E2 as (A & B).
      apply Z.leb_le in A; apply Z.ltb_lt in B; lia.
Qed.

End RegisterExtras.

Section SplitExtras.

(** The tuple [split_params] builds for one generator. *)
Lemma split_params_loop_value (todo : list BaseSynth) (params : tensor3)
    (acc l : list (list tensor3)) :
  split_params_loop todo params 0 acc = Some l ->
  l = acc ++ map (fun g =>
        split_sections (slice_last params 0 (0 + total_params g)) 0
          (map snd (call_params g))) todo.
Proof.
  revert acc; induction todo as [|g rest IH]; intros acc; cbn [split_params_loop map].
  - intros H; injection H as <-; rewrite app_nil_r; reflexivity.
  - intros H; apply bind_Some in H as (sp & Hsp & H).
    apply IH in H; rewrite H, <- app_assoc; cbn [app].
    unfold split in Hsp.
    destruct (list_sum (map snd (call_params g))
              =? dim2 (slice_last params 0 (0 + total_params g)));
      [|discriminate].
    injection Hsp as <-; reflexivity.
Qed.

Lemma firstn_sum_le (sizes : list nat) (k w : nat) :
  nth_error sizes k = Some w ->
  list_sum (firstn k sizes) + w <= list_sum sizes.
Proof.
  unfold list_sum.
  revert k; induction sizes as [|a sizes IH]; intros [|k];
    cbn [nth_error firstn fold_right]; try discriminate.
  - intros H; injection H as ->; lia.
  - intros H; apply IH in H; lia.
Qed.

Lemma split_sections_nth (x : tensor3) (sizes : list nat) (off k w : nat) :
  nth_error sizes k = Some w ->
  nth_error (split_sections x off sizes) k
  = Some (slice_last x (off + list_sum (firstn k sizes))
                       (off + list_sum (firstn k sizes) + w)).
Proof.
  revert off k; induction sizes as [|a sizes IH]; intros off [|k];
    cbn [nth_error split_sections firstn list_sum fold_right]; try discriminate.
  - intros H; injection H as ->; rewrite Nat.add_0_r; reflexivity.
  - intros H; rewrite (IH _ _ H).
    change (fold_right Nat.add 0 (firstn k sizes)) with (list_sum (firstn k sizes)).
    rewrite !Nat.add_assoc; reflexivity.
Qed.

Lemma split_sections_length (x : tensor3) (sizes : list nat) (off : nat) :
  List.length (split_sections x off sizes) = List.length sizes.
Proof.
  revert off; induction sizes as [|a sizes IH]; intros off; cbn; [|rewrite IH];
    reflexivity.
Qed.

(** X20.  [split_params] succeeds exactly when the widest registered
    generator fits into the last dimension of the flat tensor: the sum of
    the widths plays no part, and neither do the batch and time
    dimensions.  The empty register returns the empty list. *)
Theorem split_params_succeeds_iff (self : SynthRegister) (params : tensor3) :
  ((exists l, split_params self params = Some l) <->
   list_max (map total_params (synths self)) <= dim2 params) /\
  split_params SynthRegister_init params = Some [].
Proof.
  split; [|reflexivity].
  unfold split_params.
  rewrite (split_params_loop_ok (synths self) params []).
  rewrite list_max_le, Forall_map; reflexivity.
Qed.

(** X21.  A successful [split_params] returns one tuple per registered
    generator, in registration order, and the tuple of a generator is
    the one it receives when it is the only generator registered: its
    position in the register has no influence on its slice. *)
Theorem split_params_position_independent (self : SynthRegister)
    (params : tensor3) (l : list (list tensor3)) :
  split_params self params = Some l ->
  List.length l = List.length (synths self) /\
  forall (j : nat) (g : BaseSynth), nth_error (synths self) j = Some g ->
    exists tup, nth_error l j = Some tup /\
      split_params (register SynthRegister_init g) params = Some [tup].
Proof.
  intros H.
  assert (HF : Forall (fun g => total_params g <= dim2 params) (synths self))
    by (apply (split_params_loop_ok _ _ []); eauto).
  apply split_params_loop_value in H; cbn [app] in H; subst l.
  split; [apply length_map|].
  intros j g Hg.
  eexists; split; [apply map_nth_error; exact Hg|].
  assert (Hfit : total_params g <= dim2 params).
  { rewrite Forall_forall in HF; apply HF; eapply nth_error_In; exact Hg. }
  destruct (proj2 (split_params_loop_ok [g] params [])) as [l1 Hl1];
    [constructor; [exact Hfit | constructor]|].
  unfold split_params, register, SynthRegister_init; cbn [synths app].
  rewrite Hl1; apply split_params_loop_value in Hl1; rewrite Hl1; reflexivity.
Qed.

(** X22.  The content of every slot: in a successful [split_params],
    slot [k] of any generator, of declared width [w], has the batch and
    time dimensions of the flat tensor and width [w], and its channel
    [t] is channel [o + t] of the flat tensor, where [o] is the sum of
    the widths of the earlier slots of that same generator.  The widths
    of the generators registered before it do not enter. *)
Theorem split_params_slot_entries (self : SynthRegister) (params : tensor3)
    (l : list (list tensor3)) (j k w : nat) (g : BaseSynth) (name : string) :
  split_params self params = Some l ->
  nth_error (synths self) j = Some g ->
  nth_error (call_params g) k = Some (name, w) ->
  exists tup x,
    nth_error l j = Some tup /\ nth_error tup k = Some x /\
    List.length tup = List.length (call_params g) /\
    dim0 x = dim0 params /\ dim1 x = dim1 params /\ dim2 x = w /\
    forall b c t, t < w ->
      at3 x b c t
      = at3 params b c (list_sum (firstn k (map snd (call_params g))) + t).
Proof.
  intros H Hg Hk.
  assert (HF : Forall (fun g => total_params g <= dim2 params) (synths self))
    by (apply (split_params_loop_ok _ _ []); eauto).
  assert (Hfit : total_params g <= dim2 params).
  { rewrite Forall_forall in HF; apply HF; eapply nth_error_In; exact Hg. }
  apply split_params_loop_value in H; cbn [app] in H; subst l.
  assert (Hw : nth_error (map snd (call_params g)) k = Some w)
    by (apply (map_nth_error snd _ _ Hk)).
  pose proof (firstn_sum_le _ _ _ Hw) as Hle.
  unfold total_params in Hfit.
  eexists; eexists; split; [apply map_nth_error; exact Hg|].
  split; [apply split_sections_nth; exact Hw|].
  split; [rewrite split_sections_length; apply length_map|].
  unfold total_params; cbn [dim0 dim1 dim2 at3 slice_last].
  repeat split; try lia.
  intros b c t Ht; f_equal; lia.
Qed.

(** X22, witness: the second generator of the register 1 | 1 + 1 on the
    tensor 10 | 20 | 30; its amplitudes slot is read at channel 1. *)
Lemma split_params_slot_entries_witness :
  exists tup x,
    nth_error [[slice_last (slice_last flat_10_20_30 0 1) 0 1];
               [slice_last (slice_last flat_10_20_30 0 2) 0 1;
                slice_last (slice_last flat_10_20_30 0 2) 1 2]] 1 = Some tup /\
    nth_error tup 1 = Some x /\
    List.length tup = List.length (call_params (Sine (ss_1 false))) /\
    dim0 x = dim0 flat_10_20_30 /\ dim1 x = dim1 flat_10_20_30 /\ dim2 x = 1 /\
    forall b c t, t < 1 ->
      at3 x b c t
      = at3 flat_10_20_30 b c
          (list_sum (firstn 1 (map snd (call_params (Sine (ss_1 false))))) + t).
Proof.
  apply (split_params_slot_entries reg_noise_sine flat_10_20_30 _ 1 1 1
           (Sine (ss_1 false)) "amplitudes"%string); reflexivity.
Defined.

(** X21, witness: the register 1 | 1 + 1 on the tensor 10 | 20 | 30. *)
Lemma split_params_position_independent_witness :
  List.length [[slice_last (slice_last flat_10_20_30 0 1) 0 1];
               [slice_last (slice_last flat_10_20_30 0 2) 0 1;
                slice_last (slice_last flat_10_20_30 0 2) 1 2]]
  = List.length (synths reg_noise_sine) /\
  forall (j : nat) (g : BaseSynth), nth_error (synths reg_noise_sine) j = Some g ->
    exists tup,
      nth_error [[slice_last (slice_last flat_10_20_30 0 1) 0 1];
                 [slice_last (slice_last flat_10_20_30 0 2) 0 1;
                  slice_last (slice_last flat_10_20_30 0 2) 1 2]] j = Some tup /\
      split_params (register SynthRegister_init g) flat_10_20_30 = Some [tup].
Proof.
  apply (split_params_position_independent reg_noise_sine flat_10_20_30).
  reflexivity.
Defined.

(** X23.  With a single registered generator the round trip holds for
    every kind of generator: slot tensors of the declared widths that
    agree on the batch and time dimensions, concatenated in the order of
    [call_params], are returned by [split_params] slot by slot. *)
Theorem single_generator_round_trip (g : BaseSynth) (x0 : tensor3)
    (xs : list tensor3) :
  map dim2 (x0 :: xs) = map snd (call_params g) ->
  Forall (fun x => dim0 x = dim0 x0 /\ dim1 x = dim1 x0) xs ->
  exists tup,
    split_params (register SynthRegister_init g) (cat_list x0 xs) = Some [tup] /\
    Forall2 teq3 tup (x0 :: xs).
Proof.
  intros Hw Hs.
  destruct split_params_single_round_trip as (RN & RS & RH).
  destruct g as [s|s|s];
    cbn [call_params NoiseBandSynth_call_params SineSynth_call_params
         HarmonicSynth_call_params map snd] in Hw.
  - destruct xs as [|? ?]; [|discriminate].
    injection Hw as Hw.
    destruct (RN s x0 Hw) as (a' & E & T).
    exists [a']; split; [exact E | constructor; [exact T | constructor]].
  - destruct xs as [|x1 [|? ?]]; try discriminate.
    injection Hw as H0 H1.
    apply Forall_inv in Hs as (D0 & D1).
    destruct (RS s x0 x1 H0 H1 (eq_sym D0) (eq_sym D1)) as (f' & a' & E & T1 & T2).
    exists [f'; a']; split; [exact E|].
    constructor; [exact T1 | constructor; [exact T2 | constructor]].
  - destruct xs as [|x1 [|? ?]]; try discriminate.
    injection Hw as H0 H1.
    apply Forall_inv in Hs as (D0 & D1).
    destruct (RH s x0 x1 H0 H1 (eq_sym D0) (eq_sym D1)) as (f' & a' & E & T1 & T2).
    exists [f'; a']; split; [exact E|].
    constructor; [exact T1 | constructor; [exact T2 | constructor]].
Qed.

(** X23, witness: one oscillator, frequency slot 10 and amplitude slot
    20. *)
Lemma single_generator_round_trip_witness :
  exists tup,
    split_params (register SynthRegister_init (Sine (ss_1 false)))
      (cat_list (full 1 1 1 10) [full 1 1 1 20]) = Some [tup] /\
    Forall2 teq3 tup [full 1 1 1 10; full 1 1 1 20].
Proof.
  apply (single_generator_round_trip (Sine (ss_1 false)) (full 1 1 1 10)
           [full 1 1 1 20]).
  - reflexivity.
  - repeat constructor.
Defined.

End SplitExtras.

(** ** The activation and the perceptrons of the network *)

Section NetExtras.
Import Net.

Lemma sigmoid_range (v : R) : (0 < sigmoid v < 1)%R.
Proof.
  unfold sigmoid; pose proof (exp_pos (- v)) as H.
  split.
  - apply Rdiv_lt_0_compat; lra.
  - apply (Rmult_lt_reg_r (1 + exp (- v))); [lra|].
    unfold Rdiv; rewrite Rmult_assoc, Rinv_l by lra; lra.
Qed.

Lemma sigmoid_increasing (v w : R) : (v < w)%R -> (sigmoid v < sigmoid w)%R.
Proof.
  intros H; unfold sigmoid, Rdiv; rewrite !Rmult_1_l.
  pose proof (exp_pos (- v)); pose proof (exp_pos (- w)).
  apply Rinv_lt_contravar; [apply Rmult_lt_0_compat; lra|].
  apply Rplus_lt_compat_l, exp_increasing; lra.
Qed.

Lemma ln_10_pos : (0 < ln 10)%R.
Proof. rewrite <- ln_1; apply ln_increasing; lra. Qed.

(** X24.  [_scaled_sigmoid] keeps the shape of its input, and every
    entry of its output lies strictly between 1e-18 and 2 + 1e-18: the
    output is positive, as the docstring says, and bounded.  It is
    strictly increasing in the input entry, and an input entry 0 gives
    [2 * (1/2) ** log(10) + 1e-18]. *)
Theorem scaled_sigmoid_range (x : tensor3) :
  dim0 (scaled_sigmoid x) = dim0 x /\
  dim1 (scaled_sigmoid x) = dim1 x /\
  dim2 (scaled_sigmoid x) = dim2 x /\
  (forall b c t,
     (1e-18 < at3 (scaled_sigmoid x) b c t < 2 + 1e-18)%R) /\
  (forall (y : tensor3) b c t b' c' t',
     (at3 x b c t < at3 y b' c' t')%R ->
     (at3 (scaled_sigmoid x) b c t < at3 (scaled_sigmoid y) b' c' t')%R) /\
  (forall b c t, at3 x b c t = 0%R ->
     at3 (scaled_sigmoid x) b c t = (2 * Rpower (1 / 2) (ln 10) + 1e-18)%R).
Proof.
  unfold scaled_sigmoid, map3; cbn [dim0 dim1 dim2 at3].
  split; [reflexivity|]; split; [reflexivity|]; split; [reflexivity|].
  split; [|split].
  - intros b c t.
    destruct (sigmoid_range (at3 x b c t)) as (H0 & H1).
    assert (P : (0 < Rpower (sigmoid (at3 x b c t)) (ln 10))%R)
      by (unfold Rpower; apply exp_pos).
    assert (Q : (Rpower (sigmoid (at3 x b c t)) (ln 10) < 1)%R).
    { assert (E : Rpower 1 (ln 10) = 1%R)
        by (unfold Rpower; rewrite ln_1, Rmult_0_r; apply exp_0).
      rewrite <- E.
      apply Rlt_Rpower_l; [apply ln_10_pos | lra]. }
    lra.
  - intros y b c t b' c' t' H.
    apply sigmoid_increasing in H.
    destruct (sigmoid_range (at3 x b c t)) as (H0 & H1).
    assert (Q : (Rpower (sigmoid (at3 x b c t)) (ln 10)
                 < Rpower (sigmoid (at3 y b' c' t')) (ln 10))%R)
      by (apply Rlt_Rpower_l; [apply ln_10_pos | lra]).
    lra.
  - intros b c t H; rewrite H; unfold sigmoid.
    rewrite Ropp_0, exp_0.
    replace (1 / (1 + 1))%R with (1 / 2)%R by lra; reflexivity.
Qed.

Lemma make_mlp_0 (in_size hidden_size : nat) : make_mlp in_size 0 hidden_size = [].
Proof. reflexivity. Qed.

Lemma make_mlp_S (in_size hidden_layers hidden_size : nat) :
  make_mlp in_size (S hidden_layers) hidden_size
  = [Linear in_size hidden_size; LayerNorm hidden_size; LeakyReLU]
    ++ make_mlp hidden_size hidden_layers hidden_size.
Proof.
  unfold make_mlp.
  cbn [app repeat List.length].
  rewrite !Nat.sub_succ, !Nat.sub_0_r.
  rewrite repeat_length.
  change (seq 0 (S hidden_layers)) with (0 :: seq 1 hidden_layers).
  cbn [flat_map]; cbn [nth Nat.add app].
  f_equal; f_equal; f_equal.
  rewrite <- seq_shift, flat_map_concat_map, map_map, <- flat_map_concat_map.
  apply flat_map_ext; intros i.
  cbn [Nat.add nth]; reflexivity.
Qed.

Lemma sequential_width_app (a b : list layer) (w : nat) :
  sequential_width (a ++ b) w
  = bind (sequential_width a w) (sequential_width b).
Proof.
  revert w; induction a as [|l a IH]; intros w; cbn [app sequential_width bind];
    [reflexivity|].
  destruct (layer_width l w) as [w'|]; cbn [bind]; [apply IH | reflexivity].
Qed.

Lemma sequential_width_hidden (hidden_layers hidden_size : nat) :
  sequential_width (make_mlp hidden_size hidden_layers hidden_size) hidden_size
  = Some hidden_size.
Proof.
  induction hidden_layers as [|n IH]; [reflexivity|].
  rewrite make_mlp_S; cbn [app sequential_width layer_width bind].
  rewrite Nat.eqb_refl; cbn [bind]; rewrite Nat.eqb_refl; cbn [bind].
  exact IH.
Qed.

(** X25.  [_make_mlp] builds three layers per hidden layer, a linear
    map, a normalisation and an activation; the first linear map takes
    [in_size] features and every later one [hidden_size].  With at least
    one hidden layer the container accepts an input exactly when its
    last dimension is [in_size], and returns last dimension
    [hidden_size]; with no hidden layer it is the empty container, which
    returns any input unchanged. *)
Theorem make_mlp_width (in_size hidden_layers hidden_size width : nat) :
  List.length (make_mlp in_size hidden_layers hidden_size) = 3 * hidden_layers /\
  make_mlp in_size (S hidden_layers) hidden_size
  = [Linear in_size hidden_size; LayerNorm hidden_size; LeakyReLU]
    ++ make_mlp hidden_size hidden_layers hidden_size /\
  sequential_width (make_mlp in_size (S hidden_layers) hidden_size) width
  = (if width =? in_size then Some hidden_size else None) /\
  sequential_width (make_mlp in_size 0 hidden_size) width = Some width.
Proof.
  split; [|split; [apply make_mlp_S | split; [|reflexivity]]].
  - revert in_size; induction hidden_layers as [|n IH]; intros in_size;
      [reflexivity|].
    rewrite make_mlp_S, List.length_app, IH; cbn [List.length]; lia.
  - rewrite make_mlp_S; cbn [app sequential_width layer_width].
    destruct (width =? in_size); cbn [bind]; [|reflexivity].
    rewrite Nat.eqb_refl; cbn [bind].
    apply sequential_width_hidden.
Qed.

End NetExtras.
